(** * audioconvert: caps negotiation, fixation and the per-buffer transform

    A shallow embedding of gst/audioconvert/gstaudioconvert.c.  Capability
    structures are finite maps from field names to GValues; the C functions
    that mutate a structure in place become functions returning the updated
    structure (the element only ever mutates a structure it has just copied
    or has not yet appended, so no aliasing is lost).  C integers are [Z]
    with the conversions between [gint] and [guint] written out. *)

From Stdlib Require Import ZArith List Bool.
From stdpp Require Import base gmap strings list fin_maps sorting.

Local Open Scope string_scope.
Local Open Scope list_scope.
Local Open Scope Z_scope.

(** ** C integer types *)

Module CInt.

Definition G_MAXINT : Z := 2147483647.
Definition G_MININT : Z := -2147483648.
Definition two32 : Z := 4294967296.

(** Conversion to [guint] (32 bit, unsigned): reduction modulo 2^32. *)
Definition to_guint (z : Z) : Z := z mod two32.

(** Conversion to [gint] (32 bit, two's complement). *)
Definition to_gint (z : Z) : Z := (z + 2147483648) mod two32 - 2147483648.

End CInt.
Export CInt.

(** ** The GStreamer core objects the element works with *)

Module Gst.

#[local] Set Warnings "-register-all".

(** A GValue, restricted to the types that occur in raw audio caps.
    [GOther] stands for a fixed value of any other type (a string, an
    enum, an array of channel positions, ...). *)
Inductive GValue : Type :=
| GInt (n : Z)
| GBoolean (b : bool)
| GIntRange (lo hi : Z)
| GList (vs : list GValue)
| GOther (repr : string).

(** A GstStructure: a name and its fields, looked up by field name. *)
Record GstStructure : Type := mkStructure {
  st_name : string;
  st_fields : gmap string GValue
}.

(** GstCaps: an array of structures. *)
Definition GstCaps : Type := list GstStructure.

Definition gst_structure_empty_new (name : string) : GstStructure :=
  mkStructure name ∅.

Definition gst_structure_get_name (s : GstStructure) : string := st_name s.

Definition gst_structure_set_name (s : GstStructure) (name : string) : GstStructure :=
  mkStructure name (st_fields s).

Definition gst_structure_get_value (s : GstStructure) (f : string) : option GValue :=
  st_fields s !! f.

Definition gst_structure_has_field (s : GstStructure) (f : string) : bool :=
  match st_fields s !! f with Some _ => true | None => false end.

(** gst_structure_get_int: succeeds only on a field of type G_TYPE_INT. *)
Definition gst_structure_get_int (s : GstStructure) (f : string) : option Z :=
  match st_fields s !! f with Some (GInt n) => Some n | _ => None end.

(** gst_structure_get_boolean: succeeds only on a G_TYPE_BOOLEAN field. *)
Definition gst_structure_get_boolean (s : GstStructure) (f : string) : option bool :=
  match st_fields s !! f with Some (GBoolean b) => Some b | _ => None end.

(** gst_structure_set / gst_structure_set_value: replace or add a field. *)
Definition gst_structure_set_value (s : GstStructure) (f : string) (v : GValue)
  : GstStructure :=
  mkStructure (st_name s) (<[f := v]> (st_fields s)).

Definition gst_structure_remove_field (s : GstStructure) (f : string) : GstStructure :=
  mkStructure (st_name s) (delete f (st_fields s)).

(** gst_value_is_fixed: lists and ranges are not fixed. *)
Definition gst_value_is_fixed (v : GValue) : bool :=
  match v with
  | GInt _ | GBoolean _ | GOther _ => true
  | GIntRange _ _ | GList _ => false
  end.

(** gst_caps_is_fixed: exactly one structure, all of whose fields are fixed. *)
Definition gst_caps_is_fixed (caps : GstCaps) : bool :=
  match caps with
  | [s] => forallb (λ kv, gst_value_is_fixed kv.2) (map_to_list (st_fields s))
  | _ => false
  end.

(** The integers and booleans a (possibly unfixed) value stands for. *)
Fixpoint has_int (v : GValue) (n : Z) : bool :=
  match v with
  | GInt m => m =? n
  | GIntRange lo hi => (lo <=? n) && (n <=? hi)
  | GList vs => existsb (λ w, has_int w n) vs
  | _ => false
  end.

Fixpoint has_boolean (v : GValue) (b : bool) : bool :=
  match v with
  | GBoolean c => Bool.eqb c b
  | GList vs => existsb (λ w, has_boolean w b) vs
  | _ => false
  end.

(** gst_structure_fixate_field_nearest_int (GStreamer core, gststructure.c).
    An int range is clamped around the target; in a list the int entries are
    scanned in order and an entry replaces the best one so far only when it
    is strictly nearer, so among equally near entries the first listed wins.
    A field that is already fixed, or of another type, is left alone. *)
Definition nearest_step (target : Z) (best : option Z) (v : GValue) : option Z :=
  match v with
  | GInt x =>
      match best with
      | None => Some x
      | Some b => if Z.abs (target - x) <? Z.abs (target - b) then Some x else Some b
      end
  | _ => best
  end.

Definition nearest_in_list (target : Z) (vs : list GValue) : option Z :=
  fold_left (nearest_step target) vs None.

Definition clamp_to_range (lo hi target : Z) : Z :=
  let t := if target <? lo then lo else target in
  if t >? hi then hi else t.

Definition gst_structure_fixate_field_nearest_int
  (s : GstStructure) (f : string) (target : Z) : GstStructure :=
  match st_fields s !! f with
  | Some (GIntRange lo hi) =>
      gst_structure_set_value s f (GInt (clamp_to_range lo hi target))
  | Some (GList vs) =>
      match nearest_in_list target vs with
      | Some best => gst_structure_set_value s f (GInt best)
      | None => s
      end
  | _ => s
  end.

(** gst_structure_fixate_field_boolean: in a list, the boolean entry equal
    to the target if there is one, else the first boolean entry. *)
Definition boolean_step (target : bool) (best : option bool) (v : GValue) : option bool :=
  match v with
  | GBoolean x =>
      match best with
      | None => Some x
      | Some b => if Bool.eqb x target then Some x else Some b
      end
  | _ => best
  end.

Definition gst_structure_fixate_field_boolean
  (s : GstStructure) (f : string) (target : bool) : GstStructure :=
  match st_fields s !! f with
  | Some (GList vs) =>
      match fold_left (boolean_step target) vs None with
      | Some best => gst_structure_set_value s f (GBoolean best)
      | None => s
      end
  | _ => s
  end.

Definition G_LITTLE_ENDIAN : Z := 1234.
Definition G_BIG_ENDIAN : Z := 4321.

Inductive GstFlowReturn : Type := GST_FLOW_OK | GST_FLOW_ERROR.

(** A GstBuffer: the data it points to, its logical size (a [guint]) and
    whether the caller holds the only reference to it. *)
Record GstBuffer : Type := mkBuffer {
  buf_data : list Byte.byte;
  buf_size : Z;
  buf_writable : bool
}.

End Gst.
Export Gst.

(** ** audioconvert.h: the parsed format and the conversion context *)

Module AudioConvert.

Definition GstAudioChannelPosition : Type := Z.

Record AudioConvertFmt : Type := mkFmt {
  is_int : bool;
  endianness : Z;
  width : Z;
  rate : Z;
  channels : Z;
  pos : option (list GstAudioChannelPosition);
  sign : bool;
  depth : Z;
  unit_size : Z
}.

(** The zero-initialised format of [AudioConvertFmt fmt = { 0 }]. *)
Definition fmt_zero : AudioConvertFmt :=
  mkFmt false 0 0 0 0 None false 0 0.

Record AudioConvertCtx : Type := mkCtx {
  ctx_prepared : bool;
  ctx_in : AudioConvertFmt;
  ctx_out : AudioConvertFmt
}.

(** Modelled from the spec: audio_convert_get_sizes (audioconvert.c is not
    among the sources at hand).  The input and output byte counts are the
    sample count times the respective unit size, computed in [gint]; the
    query fails on a context that has not been prepared. *)
Definition audio_convert_get_sizes (ctx : AudioConvertCtx) (samples : Z)
  : option (Z * Z) :=
  if ctx_prepared ctx
  then Some (to_gint (samples * unit_size (ctx_in ctx)),
             to_gint (samples * unit_size (ctx_out ctx)))
  else None.

Definition raw_int_name : string := "audio/x-raw-int".
Definition raw_float_name : string := "audio/x-raw-float".

Section Element.

(** The byte order of the host, G_BYTE_ORDER. *)
Variable G_BYTE_ORDER : Z.

(** gst_audio_get_channel_positions (gst-libs/gst/audio/multichannel.c):
    the channel positions of a structure, or NULL. *)
Variable gst_audio_get_channel_positions :
  GstStructure → option (list GstAudioChannelPosition).

(** audio_convert_convert (audioconvert.c): given the context, the source
    data, the destination data, the sample count and whether the source is
    writable, reports success and leaves the destination data. *)
Variable audio_convert_convert :
  AudioConvertCtx → list Byte.byte → list Byte.byte → Z → bool →
  bool * list Byte.byte.

(** *** gst_audio_convert_parse_caps *)

(** [fmt] is the format the caller passes in: the fields the function does
    not assign keep their old contents.  [None] is the FALSE return, whether
    reached through g_return_val_if_fail, no_values or not_allowed. *)
Definition gst_audio_convert_parse_caps (caps : GstCaps) (fmt : AudioConvertFmt)
  : option AudioConvertFmt :=
  match caps with
  | structure :: _ =>
      if negb (gst_caps_is_fixed caps) then None else
      let fmt_is_int := String.eqb (gst_structure_get_name structure) raw_int_name in
      (* parse common fields *)
      fmt_channels ← gst_structure_get_int structure "channels";
      fmt_pos ← gst_audio_get_channel_positions structure;
      fmt_width ← gst_structure_get_int structure "width";
      fmt_rate ← gst_structure_get_int structure "rate";
      '(fmt_sign, fmt_depth, fmt_endianness) ←
        (if fmt_is_int then
           (* int specific fields *)
           fmt_sign ← gst_structure_get_boolean structure "signed";
           fmt_depth ← gst_structure_get_int structure "depth";
           (* width != 8 can have an endianness field *)
           fmt_endianness ←
             (if negb (fmt_width =? 8)
              then gst_structure_get_int structure "endianness"
              else Some G_BYTE_ORDER);
           (* depth cannot be bigger than the width *)
           if fmt_depth >? fmt_width then None
           else Some (fmt_sign, fmt_depth, fmt_endianness)
         else Some (sign fmt, depth fmt, G_BYTE_ORDER));
      Some (mkFmt fmt_is_int fmt_endianness fmt_width fmt_rate fmt_channels
              (Some fmt_pos) fmt_sign fmt_depth
              (Z.quot (to_gint (fmt_width * fmt_channels)) 8))
  | [] => None
  end.

(** *** gst_audio_convert_get_unit_size *)

(** [*size = fmt.unit_size] stores the [gint] into a [guint]. *)
Definition gst_audio_convert_get_unit_size (caps : GstCaps) : option Z :=
  match gst_audio_convert_parse_caps caps fmt_zero with
  | None => None
  | Some fmt => Some (to_guint (unit_size fmt))
  end.

(** *** Building the width lists *)

(** The loop [for (width = min; width <= max; width += 8)] of
    set_structure_widths, bounded by a number of iterations. *)
Fixpoint widths_loop (fuel : nat) (width max : Z) : list GValue :=
  match fuel with
  | O => []
  | S fuel' =>
      if width <=? max then GInt width :: widths_loop fuel' (width + 8) max
      else []
  end.

(** Set widths (a list); multiples of 8 between min and max.  The loop runs
    at most [max - min + 1] times. *)
Definition set_structure_widths (s : GstStructure) (min max : Z) : GstStructure :=
  if min =? max then gst_structure_set_value s "width" (GInt min)
  else gst_structure_set_value s "width"
         (GList (widths_loop (Z.to_nat (max - min + 1)) min max)).

(** Set widths of 32 bits and 64 bits (as list). *)
Definition set_structure_widths_32_and_64 (s : GstStructure) : GstStructure :=
  gst_structure_set_value s "width" (GList [GInt 32; GInt 64]).

(** *** make_lossless_changes and append_with_other_format *)

Definition make_lossless_changes (s : GstStructure) (isfloat : bool) : GstStructure :=
  if isfloat then
    (* float doesn't have a depth or signedness field and only supports a
       widths of 32/64 and native endianness *)
    let s := gst_structure_remove_field s "depth" in
    let s := gst_structure_remove_field s "signed" in
    let s := set_structure_widths_32_and_64 s in
    gst_structure_set_value s "endianness" (GInt G_BYTE_ORDER)
  else
    (* int supports either endian, and signed or unsigned *)
    let s := gst_structure_set_value s "endianness"
               (GList [GInt G_LITTLE_ENDIAN; GInt G_BIG_ENDIAN]) in
    gst_structure_set_value s "signed" (GList [GBoolean true; GBoolean false]).

(** Appends to [caps] a copy of [s] turned into the other format. *)
Definition append_with_other_format (caps : GstCaps) (s : GstStructure) (isfloat : bool)
  : GstCaps :=
  if isfloat then
    let s2 := gst_structure_set_name s raw_int_name in
    caps ++ [make_lossless_changes s2 false]
  else
    let s2 := gst_structure_set_name s raw_float_name in
    caps ++ [make_lossless_changes s2 true].

(** *** gst_audio_convert_transform_caps *)

Definition fields_used : list string :=
  ["width"; "depth"; "rate"; "channels"; "endianness"; "signed"].

(** One round of the loop that copies the used fields of [structure]. *)
Definition copy_field (structure : GstStructure) (s : GstStructure) (f : string)
  : GstStructure :=
  match gst_structure_get_value structure f with
  | Some v => gst_structure_set_value s f v
  | None => s
  end.

(** [None] is the NULL returned when the caps are not simple. *)
Definition gst_audio_convert_transform_caps (caps : GstCaps) : option GstCaps :=
  match caps with
  | [structure] =>
    let structure_name := gst_structure_get_name structure in
    let isfloat := String.eqb structure_name raw_float_name in
    (* We operate on a version of the original structure with any
       additional fields absent *)
    let s := fold_left (copy_field structure) fields_used
               (gst_structure_empty_new structure_name) in
    let s :=
      if negb isfloat then
        (* Commonly, depth is left out: set it equal to width if we have a
           fixed width, if so *)
        match gst_structure_has_field s "depth", gst_structure_get_int s "width" with
        | false, Some width => gst_structure_set_value s "depth" (GInt width)
        | _, _ => s
        end
      else s in
    let ret : GstCaps := [] in
    (* All lossless conversions *)
    let s := make_lossless_changes s isfloat in
    let ret := ret ++ [s] in
    (* Same, plus a float<->int conversion *)
    let ret := append_with_other_format ret s isfloat in
    (* We don't mind increasing width/depth/channels, but reducing them is
       Very Bad. Only available if width, depth, channels are already fixed. *)
    let s :=
      if negb isfloat then
        let s := match gst_structure_get_int structure "width" with
                 | Some width => set_structure_widths s width 32
                 | None => s
                 end in
        match gst_structure_get_int structure "depth" with
        | Some depth =>
            if depth =? 32 then gst_structure_set_value s "depth" (GInt 32)
            else gst_structure_set_value s "depth" (GIntRange depth 32)
        | None => s
        end
      else s in
    let s := match gst_structure_get_int structure "channels" with
             | Some channels =>
                 if channels =? 8 then gst_structure_set_value s "channels" (GInt 8)
                 else gst_structure_set_value s "channels" (GIntRange channels 8)
             | None => s
             end in
    let ret := ret ++ [s] in
    (* Same, plus a float<->int conversion *)
    let ret := append_with_other_format ret s isfloat in
    (* We'll reduce depth if we must... only for integer, since we can't do
       this for float. We reduce as low as 16 bits *)
    let '(ret, s) :=
      if match gst_structure_get_int structure "width" with
         | None => true
         | Some width => width >? 16
         end
      then
        if isfloat then
          let s2 := set_structure_widths s 16 32 in
          let s2 := gst_structure_set_value s2 "depth" (GIntRange 16 32) in
          (append_with_other_format ret s2 true, s)
        else
          let s := set_structure_widths s 16 32 in
          let s := gst_structure_set_value s "depth" (GIntRange 16 32) in
          (ret ++ [s], s)
      else (ret, s) in
    (* Channel conversions to fewer channels is only done if needed *)
    let s := gst_structure_set_value s "channels" (GIntRange 1 8) in
    let ret := ret ++ [s] in
    (* Same, plus a float<->int conversion *)
    let ret := append_with_other_format ret s isfloat in
    (* And, finally, for integer only, we allow conversion to any
       width/depth we support *)
    let s := set_structure_widths s 8 32 in
    let s := gst_structure_set_value s "depth" (GIntRange 1 32) in
    Some (if isfloat then append_with_other_format ret s true else ret ++ [s])
  | _ => None
  end.

(** *** gst_audio_convert_fixate_caps *)

(** One [if (gst_structure_has_field (outs, f)) fixate ...] of the function. *)
Definition fixate_int_if_present (outs : GstStructure) (f : string) (target : Z)
  : GstStructure :=
  if gst_structure_has_field outs f
  then gst_structure_fixate_field_nearest_int outs f target
  else outs.

(** Returns [othercaps] with its first structure fixated.  The local
    [width] is not initialised in the C code: [width_uninit] is the value it
    holds when the fixed caps carry no int width. *)
Definition gst_audio_convert_fixate_caps (width_uninit : Z) (caps othercaps : GstCaps)
  : GstCaps :=
  if negb (gst_caps_is_fixed caps) then othercaps else
  match caps, othercaps with
  | ins :: _, outs :: others =>
    let outs := match gst_structure_get_int ins "channels" with
                | Some channels => fixate_int_if_present outs "channels" channels
                | None => outs
                end in
    let outs := match gst_structure_get_int ins "rate" with
                | Some rate => fixate_int_if_present outs "rate" rate
                | None => outs
                end in
    let outs := match gst_structure_get_int ins "endianness" with
                | Some endianness => fixate_int_if_present outs "endianness" endianness
                | None => outs
                end in
    let '(outs, width) :=
      match gst_structure_get_int ins "width" with
      | Some width => (fixate_int_if_present outs "width" width, width)
      | None => (* this is not allowed *) (outs, width_uninit)
      end in
    let outs := match gst_structure_get_int ins "depth" with
                | Some depth => fixate_int_if_present outs "depth" depth
                | None => (* set depth as width *)
                    fixate_int_if_present outs "depth" width
                end in
    let outs := match gst_structure_get_boolean ins "signed" with
                | Some signedness =>
                    if gst_structure_has_field outs "signed"
                    then gst_structure_fixate_field_boolean outs "signed" signedness
                    else outs
                | None => outs
                end in
    outs :: others
  | _, _ => othercaps
  end.

(** *** gst_audio_convert_transform *)

(** What the function does besides returning: the calls into the
    conversion context and the element errors it posts, one per label. *)
Inductive Event : Type :=
| EvGetSizes (samples : Z)
| EvConvert (samples : Z) (src_writable : bool)
| EvError
| EvWrongSize
| EvConvertError.

(** The result is the flow return, the output buffer as the function leaves
    it and the events in order.  [None] is the division by a zero unit size,
    on which C defines no behaviour. *)
Definition gst_audio_convert_transform
  (ctx : AudioConvertCtx) (inbuf outbuf : GstBuffer)
  : option (GstFlowReturn * GstBuffer * list Event) :=
  if to_guint (unit_size (ctx_in ctx)) =? 0 then None else
  (* get amount of samples to convert: a guint division, stored in a gint *)
  let samples := to_gint (buf_size inbuf / to_guint (unit_size (ctx_in ctx))) in
  (* get in/output sizes, to see if the buffers we got are of correct sizes *)
  match audio_convert_get_sizes ctx samples with
  | None => Some (GST_FLOW_ERROR, outbuf, [EvGetSizes samples; EvError])
  | Some (insize, outsize) =>
    if (insize =? 0) || (outsize =? 0)
    then Some (GST_FLOW_OK, outbuf, [EvGetSizes samples])
    else
    (* check in and outsize: comparisons of a guint with a gint *)
    if buf_size inbuf <? to_guint insize
    then Some (GST_FLOW_ERROR, outbuf, [EvGetSizes samples; EvWrongSize])
    else
    if buf_size outbuf <? to_guint outsize
    then Some (GST_FLOW_ERROR, outbuf, [EvGetSizes samples; EvWrongSize])
    else
    (* and convert the samples *)
    let '(res, dst) :=
      audio_convert_convert ctx (buf_data inbuf) (buf_data outbuf) samples
        (buf_writable inbuf) in
    let calls := [EvGetSizes samples; EvConvert samples (buf_writable inbuf)] in
    if negb res
    then Some (GST_FLOW_ERROR,
               mkBuffer dst (buf_size outbuf) (buf_writable outbuf),
               calls ++ [EvConvertError])
    else Some (GST_FLOW_OK,
               mkBuffer dst (to_guint outsize) (buf_writable outbuf),
               calls)
  end.

(** *** gst_audio_convert_set_caps and gst_audio_convert_transform_ip *)

(** audio_convert_prepare_context (audioconvert.c): sets the context up for
    a pair of formats; reports success and leaves the context. *)
Variable audio_convert_prepare_context :
  AudioConvertCtx → AudioConvertFmt → AudioConvertFmt → bool * AudioConvertCtx.

(** Returns the gboolean and the element's context as the call leaves it. *)
Definition gst_audio_convert_set_caps
  (ctx : AudioConvertCtx) (incaps outcaps : GstCaps) : bool * AudioConvertCtx :=
  match gst_audio_convert_parse_caps incaps fmt_zero with
  | None => (false, ctx)
  | Some in_ac_caps =>
      match gst_audio_convert_parse_caps outcaps fmt_zero with
      | None => (false, ctx)
      | Some out_ac_caps =>
          let '(ok, ctx') :=
            audio_convert_prepare_context ctx in_ac_caps out_ac_caps in
          if negb ok then (* no_converter *) (false, ctx') else (true, ctx')
      end
  end.

(** Nothing to do in place. *)
Definition gst_audio_convert_transform_ip (buf : GstBuffer)
  : GstFlowReturn * GstBuffer :=
  (GST_FLOW_OK, buf).

End Element.

End AudioConvert.
Export AudioConvert.

(** * The stages of gst_audio_convert_transform_caps

    The structures the function holds in [s] at each of its
    gst_caps_append_structure calls, named so that statements can refer to
    them; [transform_caps_stages] below shows that they are what the
    function appends. *)

Module Stages.

Section Stages.

Variable G_BYTE_ORDER : Z.
Variable structure : GstStructure.

Definition isfloat_structure : bool :=
  String.eqb (gst_structure_get_name structure) raw_float_name.

(** The copy of the used fields, with the depth defaulted for int. *)
Definition stage_copy : GstStructure :=
  let s := fold_left (copy_field structure) fields_used
             (gst_structure_empty_new (gst_structure_get_name structure)) in
  if negb isfloat_structure then
    match gst_structure_has_field s "depth", gst_structure_get_int s "width" with
    | false, Some width => gst_structure_set_value s "depth" (GInt width)
    | _, _ => s
    end
  else s.

(** "All lossless conversions" *)
Definition stage_lossless : GstStructure :=
  make_lossless_changes G_BYTE_ORDER stage_copy isfloat_structure.

(** Width, depth and channels may increase. *)
Definition stage_increase : GstStructure :=
  let s := stage_lossless in
  let s :=
    if negb isfloat_structure then
      let s := match gst_structure_get_int structure "width" with
               | Some width => set_structure_widths s width 32
               | None => s
               end in
      match gst_structure_get_int structure "depth" with
      | Some depth =>
          if depth =? 32 then gst_structure_set_value s "depth" (GInt 32)
          else gst_structure_set_value s "depth" (GIntRange depth 32)
      | None => s
      end
    else s in
  match gst_structure_get_int structure "channels" with
  | Some channels =>
      if channels =? 8 then gst_structure_set_value s "channels" (GInt 8)
      else gst_structure_set_value s "channels" (GIntRange channels 8)
  | None => s
  end.

(** The guard of the depth reduction. *)
Definition depth_reduction_guard : bool :=
  match gst_structure_get_int structure "width" with
  | None => true
  | Some width => width >? 16
  end.

(** Widths 16 to 32 and depth 16 to 32 on top of [stage_increase]. *)
Definition stage_reduce_depth : GstStructure :=
  gst_structure_set_value (set_structure_widths stage_increase 16 32)
    "depth" (GIntRange 16 32).

(** What [s] is after the depth reduction: for float the reduced structure
    is a temporary and [s] is left alone. *)
Definition stage_after_reduce : GstStructure :=
  if depth_reduction_guard && negb isfloat_structure
  then stage_reduce_depth else stage_increase.

Definition stage_channels : GstStructure :=
  gst_structure_set_value stage_after_reduce "channels" (GIntRange 1 8).

Definition stage_any : GstStructure :=
  gst_structure_set_value (set_structure_widths stage_channels 8 32)
    "depth" (GIntRange 1 32).

(** The structure append_with_other_format appends for [s]. *)
Definition other_format (s : GstStructure) (isfloat : bool) : GstStructure :=
  if isfloat
  then make_lossless_changes G_BYTE_ORDER (gst_structure_set_name s raw_int_name) false
  else make_lossless_changes G_BYTE_ORDER (gst_structure_set_name s raw_float_name) true.

(** The templates of the depth reduction: none, or one. *)
Definition depth_reduction_templates : GstCaps :=
  if depth_reduction_guard then
    [if isfloat_structure then other_format stage_reduce_depth true
     else stage_reduce_depth]
  else [].

End Stages.

End Stages.
Export Stages.

(** * What the specification states, in its own terms *)

Module Spec.

Section ParseSpec.

Variable gst_audio_get_channel_positions :
  GstStructure → option (list GstAudioChannelPosition).

Definition is_integer_format (st : GstStructure) : bool :=
  String.eqb (gst_structure_get_name st) raw_int_name.

(** A required field is absent: channels, channel positions, width and
    rate for every format; signed and depth for INTEGER, and for INTEGER
    the endianness unless the width is 8. *)
Definition required_field_absent (st : GstStructure) : Prop :=
  gst_structure_get_int st "channels" = None ∨
  gst_audio_get_channel_positions st = None ∨
  gst_structure_get_int st "width" = None ∨
  gst_structure_get_int st "rate" = None ∨
  (is_integer_format st = true ∧
     (gst_structure_get_boolean st "signed" = None ∨
      gst_structure_get_int st "depth" = None ∨
      (gst_structure_get_int st "width" ≠ Some 8 ∧
       gst_structure_get_int st "endianness" = None))).

(** INTEGER with depth > width. *)
Definition depth_exceeds_width (st : GstStructure) : Prop :=
  is_integer_format st = true ∧
  ∃ w d, gst_structure_get_int st "width" = Some w ∧
         gst_structure_get_int st "depth" = Some d ∧ d > w.

End ParseSpec.

Section NegotiationSpec.

Variable G_BYTE_ORDER : Z.

(** The name of the other encoding family. *)
Definition other_format_name (st : GstStructure) : string :=
  if isfloat_structure st then raw_int_name else raw_float_name.

(** A FLOAT template: width 32 or 64, native endianness, neither depth nor
    signed. *)
Definition float_template (t : GstStructure) : Prop :=
  gst_structure_get_value t "width" = Some (GList [GInt 32; GInt 64]) ∧
  gst_structure_get_value t "endianness" = Some (GInt G_BYTE_ORDER) ∧
  gst_structure_has_field t "depth" = false ∧
  gst_structure_has_field t "signed" = false.

(** Both endiannesses and both signedness values are offered. *)
Definition offers_all_layouts (t : GstStructure) : Prop :=
  gst_structure_get_value t "endianness" =
    Some (GList [GInt G_LITTLE_ENDIAN; GInt G_BIG_ENDIAN]) ∧
  gst_structure_get_value t "signed" =
    Some (GList [GBoolean true; GBoolean false]).

Definition same_channels_and_rate (st t : GstStructure) : Prop :=
  gst_structure_get_value t "channels" = gst_structure_get_value st "channels" ∧
  gst_structure_get_value t "rate" = gst_structure_get_value st "rate".

(** The fixed side's width is absent or strictly greater than 16. *)
Definition width_absent_or_above_16 (st : GstStructure) : Prop :=
  ∀ w, gst_structure_get_int st "width" = Some w → 16 < w.

(** A reduced-depth template: not FLOAT, widths and depths from 16 up. *)
Definition reduced_depth_template (t : GstStructure) : Prop :=
  gst_structure_get_name t ≠ raw_float_name ∧
  ∃ w d, gst_structure_get_value t "width" = Some w ∧
         gst_structure_get_value t "depth" = Some d ∧
         (∀ n, has_int w n = true → 16 ≤ n ≤ 32) ∧
         (∀ n, has_int d n = true → 16 ≤ n ≤ 32) ∧
         has_int w 16 = true ∧ has_int d 16 = true.

(** [v'] offers every integer and every boolean that [v] offers. *)
Definition value_subset (v v' : GValue) : Prop :=
  (∀ n, has_int v n = true → has_int v' n = true) ∧
  (∀ b, has_boolean v b = true → has_boolean v' b = true).

(** Field by field, [t'] offers whatever [t] offers. *)
Definition template_subset (t t' : GstStructure) : Prop :=
  ∀ f v, gst_structure_get_value t f = Some v →
    ∃ v', gst_structure_get_value t' f = Some v' ∧ value_subset v v'.

(** The same, leaving the field [g] out of the comparison. *)
Definition template_subset_but (g : string) (t t' : GstStructure) : Prop :=
  ∀ f v, f ≠ g → gst_structure_get_value t f = Some v →
    ∃ v', gst_structure_get_value t' f = Some v' ∧ value_subset v v'.

(** Monotonic loosening: the last template is a superset of every earlier
    one. *)
Definition monotonic_loosening (ret : GstCaps) : Prop :=
  ∃ earlier final, ret = earlier ++ [final] ∧
    ∀ t, t ∈ earlier → template_subset t final.

Definition supported_widths : GValue :=
  GList [GInt 8; GInt 16; GInt 24; GInt 32].
Definition supported_depths : GValue := GIntRange 1 32.
Definition supported_channels : GValue := GIntRange 1 8.
Definition both_endiannesses : GValue :=
  GList [GInt G_LITTLE_ENDIAN; GInt G_BIG_ENDIAN].
Definition both_signs : GValue := GList [GBoolean true; GBoolean false].
Definition float_widths : GValue := GList [GInt 32; GInt 64].

(** The input lies within what the pad templates allow: channels 1 to 8
    and, for a format that is not FLOAT, a width of 8, 16, 24 or 32 and a
    depth of 1 to 32. *)
Definition within_supported_ranges (st : GstStructure) : Prop :=
  (∀ v, gst_structure_get_value st "channels" = Some v →
        value_subset v supported_channels) ∧
  (isfloat_structure st = false →
     (∀ v, gst_structure_get_value st "width" = Some v →
           value_subset v supported_widths) ∧
     (∀ v, gst_structure_get_value st "depth" = Some v →
           value_subset v supported_depths)).

(** What a field of a template may hold for the template to lie within
    the last template of the sequence; the width is only constrained when
    [with_width] is set. *)
Definition field_within (st : GstStructure) (with_width : bool)
  (f : string) (v : GValue) : Prop :=
  (f = "channels" ∧ value_subset v supported_channels) ∨
  (f = "depth" ∧ value_subset v supported_depths) ∨
  (f = "endianness" ∧ value_subset v both_endiannesses) ∨
  (f = "signed" ∧ value_subset v both_signs) ∨
  (f = "rate" ∧ gst_structure_get_value st "rate" = Some v) ∨
  (f = "width" ∧ (with_width = true → value_subset v supported_widths)).

Definition in_envelope (st : GstStructure) (with_width : bool) (t : GstStructure)
  : Prop :=
  ∀ f v, gst_structure_get_value t f = Some v → field_within st with_width f v.

(** The fields of the last template. *)
Definition fallback_template (st t : GstStructure) : Prop :=
  gst_structure_get_value t "channels" = Some supported_channels ∧
  gst_structure_get_value t "depth" = Some supported_depths ∧
  gst_structure_get_value t "width" = Some supported_widths ∧
  gst_structure_get_value t "endianness" = Some both_endiannesses ∧
  gst_structure_get_value t "signed" = Some both_signs ∧
  gst_structure_get_value t "rate" = gst_structure_get_value st "rate".

End NegotiationSpec.

Section FixationSpec.

(** The fields fixated with gst_structure_fixate_field_nearest_int, in the
    order the function goes through them. *)
Definition int_fields : list string :=
  ["channels"; "rate"; "endianness"; "width"; "depth"].

(** The value an int field of the flexible side is fixated toward: the
    fixed side's value of the field and, for a missing depth, what the local
    [width] holds, which is the fixed side's width when it has one. *)
Definition fixation_target (width_uninit : Z) (ins : GstStructure) (f : string)
  : option Z :=
  match gst_structure_get_int ins f with
  | Some t => Some t
  | None =>
      if String.eqb f "depth"
      then Some (default width_uninit (gst_structure_get_int ins "width"))
      else None
  end.

(** [x] is listed in [vs], no int entry of [vs] is nearer to [t], and the
    entries listed before it are strictly farther. *)
Definition first_nearest (t : Z) (vs : list GValue) (x : Z) : Prop :=
  ∃ l1 l2, vs = l1 ++ GInt x :: l2 ∧
    (∀ y, GInt y ∈ l1 → Z.abs (t - x) < Z.abs (t - y)) ∧
    (∀ y, GInt y ∈ l2 → Z.abs (t - x) ≤ Z.abs (t - y)).

(** [r] is what a field holding [v] holds after being fixated toward [t]. *)
Definition fixated_toward (v : GValue) (t : Z) (r : option GValue) : Prop :=
  match v with
  | GIntRange lo hi =>
      ∃ x, r = Some (GInt x) ∧
        (lo ≤ hi → lo ≤ x ≤ hi ∧
                   ∀ y, lo ≤ y ≤ hi → Z.abs (t - x) ≤ Z.abs (t - y))
  | GList vs =>
      (∃ x, r = Some (GInt x) ∧ first_nearest t vs x) ∨
      ((∀ y, GInt y ∉ vs) ∧ r = Some v)
  | _ => r = Some v
  end.

(** [x] is an integer of [v] closest to [t], the smaller one of two equally
    close ones. *)
Definition closest_smallest (v : GValue) (t x : Z) : Prop :=
  has_int v x = true ∧
  ∀ y, has_int v y = true →
    Z.abs (t - x) < Z.abs (t - y) ∨ (Z.abs (t - x) = Z.abs (t - y) ∧ x ≤ y).

(** The contract of fixation as the specification words it: every still
    free int field goes to the value closest to the fixed side's, the smaller
    of two equally close ones, and a depth the fixed side does not have goes
    toward the width that fixation resolved. *)
Definition fixation_as_specified (ins outs outs' : GstStructure) : Prop :=
  (∀ f t v, f ∈ int_fields →
     gst_structure_get_int ins f = Some t →
     gst_structure_get_value outs f = Some v →
     gst_value_is_fixed v = false →
     ∃ x, gst_structure_get_int outs' f = Some x ∧ closest_smallest v t x) ∧
  (gst_structure_get_int ins "depth" = None →
   ∀ v, gst_structure_get_value outs "depth" = Some v →
     gst_value_is_fixed v = false →
     ∃ w x, gst_structure_get_int outs' "width" = Some w ∧
            gst_structure_get_int outs' "depth" = Some x ∧
            closest_smallest v w x).

End FixationSpec.

Section TransformSpec.

(** The context has been prepared and the sizes the transform computes
    with fit the C types that hold them. *)
Definition transform_in_range (ctx : AudioConvertCtx) (inbuf outbuf : GstBuffer)
  : Prop :=
  ctx_prepared ctx = true ∧
  0 < unit_size (ctx_in ctx) ≤ G_MAXINT ∧
  0 ≤ unit_size (ctx_out ctx) ∧
  0 ≤ buf_size inbuf ≤ G_MAXINT ∧
  0 ≤ buf_size outbuf < two32 ∧
  buf_size inbuf / unit_size (ctx_in ctx) * unit_size (ctx_out ctx) ≤ G_MAXINT.

(** The number of whole frames in the input buffer. *)
Definition sample_count (ctx : AudioConvertCtx) (inbuf : GstBuffer) : Z :=
  buf_size inbuf / unit_size (ctx_in ctx).

Definition input_bytes (ctx : AudioConvertCtx) (inbuf : GstBuffer) : Z :=
  sample_count ctx inbuf * unit_size (ctx_in ctx).

Definition output_bytes (ctx : AudioConvertCtx) (inbuf : GstBuffer) : Z :=
  sample_count ctx inbuf * unit_size (ctx_out ctx).

(** The conversion was invoked. *)
Definition convert_called (events : list Event) : Prop :=
  ∃ samples writable, EvConvert samples writable ∈ events.


(** The specification's reading of the zero-sample case: the transform
    succeeds and the output buffer it leaves is zero-length. *)
Definition zero_samples_give_zero_length
  (convert : AudioConvertCtx → list Byte.byte → list Byte.byte → Z → bool →
             bool * list Byte.byte)
  (ctx : AudioConvertCtx) (inbuf outbuf : GstBuffer) : Prop :=
  sample_count ctx inbuf = 0 →
  ∃ outbuf' events,
    gst_audio_convert_transform convert ctx inbuf outbuf
      = Some (GST_FLOW_OK, outbuf', events) ∧
    buf_size outbuf' = 0.

End TransformSpec.

End Spec.
Export Spec.

(** * Sample formats *)

Module Samples.

Definition structure_of (name : string) (fields : list (string * GValue))
  : GstStructure :=
  mkStructure name (list_to_map fields).

(** audio/x-raw-int, 16 bit signed little endian, stereo, 44100 Hz *)
Definition int16_stereo : GstStructure :=
  structure_of raw_int_name
    [("width", GInt 16); ("depth", GInt 16); ("channels", GInt 2);
     ("rate", GInt 44100); ("endianness", GInt G_LITTLE_ENDIAN);
     ("signed", GBoolean true)].

(** audio/x-raw-float, 32 bit little endian, stereo, 44100 Hz *)
Definition float32_stereo : GstStructure :=
  structure_of raw_float_name
    [("width", GInt 32); ("channels", GInt 2); ("rate", GInt 44100);
     ("endianness", GInt G_LITTLE_ENDIAN)].

(** Front left, front right. *)
Definition stereo_positions (_ : GstStructure)
  : option (list GstAudioChannelPosition) := Some [1; 2].

(** What is left of the integer fallback template for a peer that takes
    8 and 16 bit integers only. *)
Definition int_8_or_16 : GstStructure :=
  structure_of raw_int_name
    [("width", GList [GInt 8; GInt 16]); ("depth", GIntRange 1 32);
     ("channels", GIntRange 1 8); ("rate", GInt 44100);
     ("endianness", GList [GInt G_LITTLE_ENDIAN; GInt G_BIG_ENDIAN]);
     ("signed", GList [GBoolean true; GBoolean false])].

(** [int_8_or_16] as gst_audio_convert_fixate_caps leaves it for
    [float32_stereo]. *)
Definition int_8_or_16_fixated : GstStructure :=
  structure_of raw_int_name
    [("width", GInt 16); ("depth", GInt 32);
     ("channels", GInt 2); ("rate", GInt 44100);
     ("endianness", GInt G_LITTLE_ENDIAN);
     ("signed", GList [GBoolean true; GBoolean false])].

(** 16 bit stereo in, 32 bit float stereo out: 4 and 8 bytes per frame. *)
Definition fmt_int16_stereo : AudioConvertFmt :=
  mkFmt true G_LITTLE_ENDIAN 16 44100 2 (Some [1; 2]) true 16 4.
Definition fmt_float32_stereo : AudioConvertFmt :=
  mkFmt false G_LITTLE_ENDIAN 32 44100 2 (Some [1; 2]) false 0 8.
Definition ctx_int16_to_float32 : AudioConvertCtx :=
  mkCtx true fmt_int16_stereo fmt_float32_stereo.

(** A conversion that succeeds and fills the destination with zeroes. *)
Definition convert_zeroes (ctx : AudioConvertCtx) (src dst : list Byte.byte)
  (samples : Z) (writable : bool) : bool * list Byte.byte :=
  (true, repeat Byte.x00 (Z.to_nat (samples * unit_size (ctx_out ctx)))).

(** Buffers of 10 and 0 bytes for the input and of 16 bytes for the
    output. *)
Definition buffer_10 : GstBuffer := mkBuffer (repeat Byte.x01 10) 10 false.
Definition buffer_0 : GstBuffer := mkBuffer [] 0 false.
Definition buffer_16 : GstBuffer := mkBuffer (repeat Byte.xff 16) 16 true.

(** [int16_stereo] with a channel-positions field besides. *)
Definition int16_stereo_positions : GstStructure :=
  gst_structure_set_value int16_stereo "channel-positions" (GOther "{ 1, 2 }").

(** A float template as the negotiation builds them. *)
Definition float_any_channels : GstStructure :=
  structure_of raw_float_name
    [("width", GList [GInt 32; GInt 64]); ("channels", GIntRange 1 8);
     ("rate", GInt 44100); ("endianness", GInt G_LITTLE_ENDIAN)].

End Samples.
Export Samples.

(** * Further notions used to state properties of the element *)

Module Properties.

(** The structure gst_audio_convert_fixate_caps leaves in place of [outs],
    written as the chain of its six blocks. *)
Definition fixate_structure (width_uninit : Z) (ins outs : GstStructure)
  : GstStructure :=
  let o1 := match gst_structure_get_int ins "channels" with
            | Some channels => fixate_int_if_present outs "channels" channels
            | None => outs
            end in
  let o2 := match gst_structure_get_int ins "rate" with
            | Some rate => fixate_int_if_present o1 "rate" rate
            | None => o1
            end in
  let o3 := match gst_structure_get_int ins "endianness" with
            | Some endianness => fixate_int_if_present o2 "endianness" endianness
            | None => o2
            end in
  let o4 := match gst_structure_get_int ins "width" with
            | Some width => fixate_int_if_present o3 "width" width
            | None => o3
            end in
  let o5 := fixate_int_if_present o4 "depth"
              (default (default width_uninit (gst_structure_get_int ins "width"))
                 (gst_structure_get_int ins "depth")) in
  match gst_structure_get_boolean ins "signed" with
  | Some signedness =>
      if gst_structure_has_field o5 "signed"
      then gst_structure_fixate_field_boolean o5 "signed" signedness
      else o5
  | None => o5
  end.

(** A value gst_structure_fixate_field_nearest_int turns into an int. *)
Definition int_fixable (v : GValue) : Prop :=
  match v with
  | GIntRange _ _ => True
  | GList vs => ∃ y, GInt y ∈ vs
  | _ => False
  end.

(** A value gst_structure_fixate_field_boolean turns into a boolean. *)
Definition boolean_fixable (v : GValue) : Prop :=
  match v with
  | GList vs => ∃ b, GBoolean b ∈ vs
  | _ => False
  end.

(** The field [f] holding [v] is fixed, or fixation against [ins] fixes
    it. *)
Definition fixable_against (width_uninit : Z) (ins : GstStructure)
  (f : string) (v : GValue) : Prop :=
  gst_value_is_fixed v = true ∨
  (f ∈ int_fields ∧ is_Some (fixation_target width_uninit ins f) ∧ int_fixable v) ∨
  (f = "signed" ∧ is_Some (gst_structure_get_boolean ins "signed") ∧
   boolean_fixable v).

(** Two structures agree on their name and on the fields the negotiation
    looks at. *)
Definition same_used_fields (st st' : GstStructure) : Prop :=
  gst_structure_get_name st = gst_structure_get_name st' ∧
  ∀ f, f ∈ fields_used →
    gst_structure_get_value st f = gst_structure_get_value st' f.

(** Every integer [v] offers is at least [n]. *)
Definition not_below (n : Z) (v : GValue) : Prop :=
  ∀ m, has_int v m = true → n ≤ m.

(** What gst_structure_fixate_field_nearest_int makes of the contents [o]
    of a field. *)
Definition fixate_value (target : Z) (o : option GValue) : option GValue :=
  match o with
  | Some (GIntRange lo hi) => Some (GInt (clamp_to_range lo hi target))
  | Some (GList vs) =>
      match nearest_in_list target vs with
      | Some best => Some (GInt best)
      | None => o
      end
  | _ => o
  end.

(** What gst_structure_fixate_field_boolean makes of the contents [o] of a
    field. *)
Definition fixate_boolean_value (target : bool) (o : option GValue)
  : option GValue :=
  match o with
  | Some (GList vs) =>
      match fold_left (boolean_step target) vs None with
      | Some best => Some (GBoolean best)
      | None => o
      end
  | _ => o
  end.

(** What fixation against [ins] makes of the contents [o] of the field
    [f]. *)
Definition fixated_field (width_uninit : Z) (ins : GstStructure) (f : string)
  (o : option GValue) : option GValue :=
  if decide (f ∈ int_fields) then
    match fixation_target width_uninit ins f with
    | Some t => fixate_value t o
    | None => o
    end
  else if decide (f = "signed") then
    match gst_structure_get_boolean ins "signed" with
    | Some b => fixate_boolean_value b o
    | None => o
    end
  else o.

(** A fixed descriptor with int channels, endianness and width, the width
    at most 32, and a boolean signed. *)
Definition complete_descriptor (ins : GstStructure) : Prop :=
  gst_caps_is_fixed [ins] = true ∧
  is_Some (gst_structure_get_int ins "channels") ∧
  is_Some (gst_structure_get_int ins "endianness") ∧
  (∃ w, gst_structure_get_int ins "width" = Some w ∧ w ≤ 32) ∧
  is_Some (gst_structure_get_boolean ins "signed").

End Properties.
Export Properties.

(** * Facts about the C integer conversions *)

Section CIntFacts.

Lemma to_gint_id z : G_MININT ≤ z ≤ G_MAXINT → to_gint z = z.
Proof.
  unfold to_gint, two32, G_MININT, G_MAXINT. intros H.
  rewrite Z.mod_small; lia.
Qed.

Lemma to_guint_id z : 0 ≤ z < two32 → to_guint z = z.
Proof. unfold to_guint. intros H. by apply Z.mod_small. Qed.

End CIntFacts.

(** * Parsing caps into a format *)

Section ParseFacts.

Variable G_BYTE_ORDER : Z.
Variable positions : GstStructure → option (list GstAudioChannelPosition).

Local Abbreviation parse_caps := (gst_audio_convert_parse_caps G_BYTE_ORDER positions).
Local Abbreviation get_unit_size := (gst_audio_convert_get_unit_size G_BYTE_ORDER positions).

(** The successful path, field by field. *)
Lemma parse_caps_Some caps fmt0 fmt :
  parse_caps caps fmt0 = Some fmt →
  ∃ st rest, caps = st :: rest ∧ gst_caps_is_fixed caps = true ∧
    gst_structure_get_int st "channels" = Some (channels fmt) ∧
    gst_structure_get_int st "width" = Some (width fmt) ∧
    gst_structure_get_int st "rate" = Some (rate fmt) ∧
    is_int fmt = is_integer_format st ∧
    unit_size fmt = Z.quot (to_gint (width fmt * channels fmt)) 8.
Proof.
  unfold gst_audio_convert_parse_caps. destruct caps as [|st rest]; [done|].
  destruct (gst_caps_is_fixed (st :: rest)) eqn:Hfix; [|done]. simpl negb. cbv iota.
  intros H. exists st, rest. revert H. unfold is_integer_format.
  destruct (gst_structure_get_int st "channels") as [c|]; [|done].
  destruct (positions st) as [p|]; [|done].
  destruct (gst_structure_get_int st "width") as [w|]; [|done].
  destruct (gst_structure_get_int st "rate") as [r|]; [|done]. simpl.
  destruct (String.eqb (gst_structure_get_name st) raw_int_name).
  - destruct (gst_structure_get_boolean st "signed") as [sg|]; [|done].
    destruct (gst_structure_get_int st "depth") as [d|]; [|done]. simpl.
    destruct (negb (w =? 8)).
    + destruct (gst_structure_get_int st "endianness") as [e|]; [|done]. simpl.
      destruct (d >? w); [done|]. simpl. by intros [= <-].
    + simpl. destruct (d >? w); [done|]. simpl. by intros [= <-].
  - simpl. by intros [= <-].
Qed.

(** The unit size does not depend on the format passed in. *)
Lemma parse_caps_unit_size_indep caps fmt0 fmt1 fmt :
  parse_caps caps fmt0 = Some fmt →
  ∃ fmt', parse_caps caps fmt1 = Some fmt' ∧ unit_size fmt' = unit_size fmt.
Proof.
  unfold gst_audio_convert_parse_caps. destruct caps as [|st rest]; [done|].
  destruct (gst_caps_is_fixed (st :: rest)); [|done]. simpl negb. cbv iota.
  destruct (gst_structure_get_int st "channels") as [c|]; [|done].
  destruct (positions st) as [p|]; [|done].
  destruct (gst_structure_get_int st "width") as [w|]; [|done].
  destruct (gst_structure_get_int st "rate") as [r|]; [|done]. simpl.
  destruct (String.eqb (gst_structure_get_name st) raw_int_name).
  - destruct (gst_structure_get_boolean st "signed") as [sg|]; [|done].
    destruct (gst_structure_get_int st "depth") as [d|]; [|done]. simpl.
    destruct (negb (w =? 8)).
    + destruct (gst_structure_get_int st "endianness") as [e|]; [|done]. simpl.
      destruct (d >? w); [done|]. simpl. intros [= <-]. eauto.
    + simpl. destruct (d >? w); [done|]. simpl. intros [= <-]. eauto.
  - simpl. intros [= <-]. eauto.
Qed.

(** C4: on fixed caps, parsing fails exactly when a required field is
    absent (channels, channel positions, width, rate; for INTEGER also signed
    and depth, and endianness unless the width is 8) or, for INTEGER, the
    depth is greater than the width. *)
Theorem parse_caps_fails_exactly st fmt0 :
  gst_caps_is_fixed [st] = true →
  parse_caps [st] fmt0 = None ↔
  required_field_absent positions st ∨ depth_exceeds_width st.
Proof.
  intros Hfix. unfold gst_audio_convert_parse_caps, required_field_absent,
    depth_exceeds_width, is_integer_format.
  rewrite Hfix. simpl negb. cbv iota.
  destruct (gst_structure_get_int st "channels") as [c|]; [|naive_solver].
  destruct (positions st) as [p|]; [|naive_solver].
  destruct (gst_structure_get_int st "width") as [w|]; [|naive_solver].
  destruct (gst_structure_get_int st "rate") as [r|]; [|naive_solver]. simpl.
  destruct (String.eqb (gst_structure_get_name st) raw_int_name).
  2:{ simpl. split; [done|]. intros [Habs|Habs]; [|by destruct Habs].
      destruct Habs as [?|[?|[?|[?|[? _]]]]]; done. }
  destruct (gst_structure_get_boolean st "signed") as [sg|]; [|naive_solver].
  destruct (gst_structure_get_int st "depth") as [d|]; [|naive_solver]. simpl.
  destruct (Z.eqb_spec w 8) as [->|Hw]; simpl.
  - destruct (Z.gtb_spec d 8) as [Hd|Hd]; simpl.
    + split; [intros _|done]. right. split; [done|]. exists 8, d.
      repeat split; [done..|lia].
    + split; [done|]. intros [Habs|Habs].
      { destruct Habs as [?|[?|[?|[?|[_ [?|[?|[? ?]]]]]]]]; congruence. }
      destruct Habs as (_ & w' & d' & [= <-] & [= <-] & ?). lia.
  - destruct (gst_structure_get_int st "endianness") as [e|]; simpl.
    + destruct (Z.gtb_spec d w) as [Hd|Hd]; simpl.
      * split; [intros _|done]. right. split; [done|]. exists w, d.
        repeat split; [done..|lia].
      * split; [done|]. intros [Habs|Habs].
        { destruct Habs as [?|[?|[?|[?|[_ [?|[?|[? ?]]]]]]]]; congruence. }
        destruct Habs as (_ & w' & d' & [= <-] & [= <-] & ?). lia.
    + split; [intros _|done]. left. do 4 right. split; [done|].
      do 2 right. split; [congruence|done].
Qed.


End ParseFacts.

(** C4 at 16 bit stereo caps, which are fixed. *)
Lemma parse_caps_fails_exactly_witness :
  gst_caps_is_fixed [int16_stereo] = true ∧
  (gst_audio_convert_parse_caps G_LITTLE_ENDIAN stereo_positions
     [int16_stereo] fmt_zero = None ↔
   required_field_absent stereo_positions int16_stereo ∨
   depth_exceeds_width int16_stereo).
Proof.
  split; [reflexivity|].
  apply (parse_caps_fails_exactly G_LITTLE_ENDIAN stereo_positions int16_stereo fmt_zero).
  reflexivity.
Defined.


(** * Facts about structures *)

Section StructureFacts.

Lemma copy_field_name structure s f :
  st_name (copy_field structure s f) = st_name s.
Proof. unfold copy_field. by destruct (gst_structure_get_value structure f). Qed.

Lemma copy_fields_name structure fs s :
  st_name (fold_left (copy_field structure) fs s) = st_name s.
Proof.
  revert s. induction fs as [|f fs IH]; intros s; simpl; [done|].
  by rewrite IH, copy_field_name.
Qed.

(** The copying loop takes over exactly the listed fields. *)
Lemma copy_fields_lookup structure fs s f :
  st_fields (fold_left (copy_field structure) fs s) !! f =
  if decide (f ∈ fs)
  then match st_fields structure !! f with
       | Some v => Some v
       | None => st_fields s !! f
       end
  else st_fields s !! f.
Proof.
  revert s. induction fs as [|g fs IH]; intros s.
  - destruct (decide (f ∈ [])) as [Hin|_]; [by apply elem_of_nil in Hin|done].
  - cbn [fold_left]. rewrite IH. unfold copy_field, gst_structure_get_value.
    destruct (decide (f = g)) as [->|Hne].
    + rewrite (decide_True (P := g ∈ g :: fs)) by left.
      destruct (st_fields structure !! g) as [v|] eqn:Hg;
        unfold gst_structure_set_value; cbn [st_fields].
      * rewrite lookup_insert_eq. by destruct (decide (g ∈ fs)).
      * by destruct (decide (g ∈ fs)).
    + assert (Hs : st_fields
                (match st_fields structure !! g with
                 | Some v => gst_structure_set_value s g v
                 | None => s
                 end) !! f = st_fields s !! f).
      { destruct (st_fields structure !! g); [|done].
        unfold gst_structure_set_value; cbn [st_fields].
        by rewrite lookup_insert_ne. }
      rewrite Hs.
      destruct (decide (f ∈ fs)) as [Hin|Hin].
      * by rewrite (decide_True (P := f ∈ g :: fs)) by (by right).
      * rewrite (decide_False (P := f ∈ g :: fs)); [done|].
        intros [?|?]%elem_of_cons; done.
Qed.

Lemma set_structure_widths_name s lo hi :
  st_name (set_structure_widths s lo hi) = st_name s.
Proof. unfold set_structure_widths. by destruct (lo =? hi). Qed.

Lemma set_structure_widths_other s lo hi f :
  f ≠ "width" →
  st_fields (set_structure_widths s lo hi) !! f = st_fields s !! f.
Proof.
  intros Hne. unfold set_structure_widths.
  destruct (lo =? hi); simpl; by rewrite lookup_insert_ne.
Qed.

(** The width loop ends by its own test: fuel beyond [max - width + 1]
    rounds is never used. *)
Lemma widths_loop_fuel max : ∀ fuel width,
  (Z.to_nat (max - width + 1) ≤ fuel)%nat →
  widths_loop (S fuel) width max = widths_loop fuel width max.
Proof.
  induction fuel as [|fuel IH]; intros width Hfuel.
  - cbn [widths_loop]. destruct (Z.leb_spec width max); [lia|done].
  - change (widths_loop (S (S fuel)) width max)
      with (if width <=? max
            then GInt width :: widths_loop (S fuel) (width + 8) max else []).
    cbn [widths_loop]. destruct (Z.leb_spec width max); [|done].
    f_equal. apply IH. lia.
Qed.

(** Every multiple of 8 above [min] up to [max] is listed. *)
Lemma widths_loop_complete max : ∀ fuel min k,
  (Z.to_nat (max - min + 1) ≤ fuel)%nat → 0 ≤ k → min + 8 * k ≤ max →
  GInt (min + 8 * k) ∈ widths_loop fuel min max.
Proof.
  induction fuel as [|fuel IH]; intros min k Hfuel Hk Hmax; [lia|].
  cbn [widths_loop]. destruct (Z.leb_spec min max); [|lia].
  destruct (decide (k = 0)) as [->|Hne].
  - rewrite Z.mul_0_r, Z.add_0_r. apply list_elem_of_here.
  - apply list_elem_of_further.
    replace (min + 8 * k) with (min + 8 + 8 * (k - 1)) by lia.
    apply IH; lia.
Qed.

End StructureFacts.

(** * Negotiation: gst_audio_convert_transform_caps *)

(** Resolves lookups through the field updates of a structure. *)
Ltac lookup_fields :=
  repeat first
    [ rewrite lookup_insert_eq
    | rewrite lookup_insert_ne by done
    | rewrite lookup_delete_eq
    | rewrite lookup_delete_ne by done
    | rewrite set_structure_widths_other by done
    | progress cbn [st_fields gst_structure_set_value gst_structure_remove_field
                    gst_structure_set_name] ].

Section NegotiationFacts.

Variable G_BYTE_ORDER : Z.

Local Abbreviation transform_caps := (gst_audio_convert_transform_caps G_BYTE_ORDER).
Local Abbreviation lossless := (make_lossless_changes G_BYTE_ORDER).
Local Abbreviation other := (other_format G_BYTE_ORDER).

(** The function appends the stages, in this order. *)
Lemma transform_caps_stages st :
  transform_caps [st] =
  Some ([stage_lossless G_BYTE_ORDER st;
         other (stage_lossless G_BYTE_ORDER st) (isfloat_structure st);
         stage_increase G_BYTE_ORDER st;
         other (stage_increase G_BYTE_ORDER st) (isfloat_structure st)]
        ++ depth_reduction_templates G_BYTE_ORDER st
        ++ [stage_channels G_BYTE_ORDER st;
            other (stage_channels G_BYTE_ORDER st) (isfloat_structure st);
            if isfloat_structure st
            then other (stage_any G_BYTE_ORDER st) true
            else stage_any G_BYTE_ORDER st]).
Proof.
  unfold gst_audio_convert_transform_caps, depth_reduction_templates, stage_any,
    stage_channels, stage_after_reduce, stage_reduce_depth, depth_reduction_guard,
    stage_increase, stage_lossless, stage_copy, isfloat_structure,
    append_with_other_format, other_format.
  destruct (String.eqb (gst_structure_get_name st) raw_float_name);
    cbn [negb andb];
    (destruct (gst_structure_get_int st "width") as [w|];
     [destruct (w >? 16)|]); reflexivity.
Qed.

(** ** Names of the stages *)

Lemma make_lossless_changes_name s b : st_name (lossless s b) = st_name s.
Proof. by destruct b. Qed.

Lemma other_format_name_eq s b :
  st_name (other s b) = if b then raw_int_name else raw_float_name.
Proof. by destruct b. Qed.

Lemma stage_copy_name st : st_name (stage_copy st) = st_name st.
Proof.
  unfold stage_copy.
  destruct (negb (isfloat_structure st)); [|by rewrite copy_fields_name].
  destruct (gst_structure_has_field _ "depth");
    [by rewrite copy_fields_name|].
  destruct (gst_structure_get_int _ "width"); cbn [st_name gst_structure_set_value];
    by rewrite copy_fields_name.
Qed.

Lemma stage_lossless_name st : st_name (stage_lossless G_BYTE_ORDER st) = st_name st.
Proof. unfold stage_lossless. by rewrite make_lossless_changes_name, stage_copy_name. Qed.

Lemma stage_increase_name st : st_name (stage_increase G_BYTE_ORDER st) = st_name st.
Proof.
  unfold stage_increase.
  assert (Hn : ∀ s (o : option Z) , st_name s = st_name st →
    st_name match o with
            | Some channels =>
                if channels =? 8 then gst_structure_set_value s "channels" (GInt 8)
                else gst_structure_set_value s "channels" (GIntRange channels 8)
            | None => s
            end = st_name st).
  { intros s [c|] Hs; [|done]. by destruct (c =? 8). }
  apply Hn. destruct (negb (isfloat_structure st)); [|apply stage_lossless_name].
  destruct (gst_structure_get_int st "depth") as [d|];
    [destruct (d =? 32)|]; cbn [st_name gst_structure_set_value];
    (destruct (gst_structure_get_int st "width");
     [rewrite set_structure_widths_name|]; apply stage_lossless_name).
Qed.

Lemma stage_reduce_depth_name st :
  st_name (stage_reduce_depth G_BYTE_ORDER st) = st_name st.
Proof.
  unfold stage_reduce_depth. cbn [st_name gst_structure_set_value].
  by rewrite set_structure_widths_name, stage_increase_name.
Qed.

Lemma stage_after_reduce_name st :
  st_name (stage_after_reduce G_BYTE_ORDER st) = st_name st.
Proof.
  unfold stage_after_reduce.
  destruct (_ && _); [apply stage_reduce_depth_name|apply stage_increase_name].
Qed.

Lemma stage_channels_name st : st_name (stage_channels G_BYTE_ORDER st) = st_name st.
Proof. apply stage_after_reduce_name. Qed.

Lemma stage_any_name st : st_name (stage_any G_BYTE_ORDER st) = st_name st.
Proof.
  unfold stage_any. cbn [st_name gst_structure_set_value].
  by rewrite set_structure_widths_name, stage_channels_name.
Qed.

Lemma isfloat_false_name st :
  isfloat_structure st = false → st_name st ≠ raw_float_name.
Proof. unfold isfloat_structure, gst_structure_get_name. by intros ?%String.eqb_neq. Qed.

(** ** Fields of the stages *)

Lemma float_template_lossless s : float_template G_BYTE_ORDER (lossless s true).
Proof.
  unfold float_template, gst_structure_get_value, gst_structure_has_field.
  cbn. by lookup_fields.
Qed.

Lemma float_template_set_channels t v :
  float_template G_BYTE_ORDER t →
  float_template G_BYTE_ORDER (gst_structure_set_value t "channels" v).
Proof.
  unfold float_template, gst_structure_get_value, gst_structure_has_field.
  cbn. by lookup_fields.
Qed.

Lemma offers_all_layouts_lossless s : offers_all_layouts (lossless s false).
Proof.
  unfold offers_all_layouts, gst_structure_get_value. cbn. by lookup_fields.
Qed.

(** The lossless changes touch width, depth, endianness and signed only. *)
Lemma make_lossless_changes_other s b f :
  f ≠ "width" → f ≠ "depth" → f ≠ "endianness" → f ≠ "signed" →
  st_fields (lossless s b) !! f = st_fields s !! f.
Proof. intros. destruct b; cbn; by lookup_fields. Qed.

Lemma make_lossless_changes_int_width s f :
  f ≠ "endianness" → f ≠ "signed" →
  st_fields (lossless s false) !! f = st_fields s !! f.
Proof. intros. cbn. by lookup_fields. Qed.

Lemma stage_copy_lookup st f :
  f ∈ fields_used → f ≠ "depth" →
  st_fields (stage_copy st) !! f = st_fields st !! f.
Proof.
  intros Hin Hne. unfold stage_copy.
  assert (Hcopy : st_fields (fold_left (copy_field st) fields_used
            (gst_structure_empty_new (gst_structure_get_name st))) !! f
          = st_fields st !! f).
  { rewrite copy_fields_lookup, decide_True by done. cbn.
    rewrite lookup_empty. by destruct (st_fields st !! f). }
  destruct (negb (isfloat_structure st)); [|done].
  destruct (gst_structure_has_field _ "depth"); [done|].
  destruct (gst_structure_get_int _ "width"); [|done].
  cbn [st_fields gst_structure_set_value]. by rewrite lookup_insert_ne.
Qed.

Lemma stage_copy_depth st d :
  st_fields st !! "depth" = Some d →
  st_fields (stage_copy st) !! "depth" = Some d.
Proof.
  intros Hd. unfold stage_copy.
  assert (Hcopy : st_fields (fold_left (copy_field st) fields_used
            (gst_structure_empty_new (gst_structure_get_name st))) !! "depth"
          = Some d).
  { rewrite copy_fields_lookup, decide_True by (unfold fields_used; set_solver).
    by rewrite Hd. }
  destruct (negb (isfloat_structure st)); [|done].
  unfold gst_structure_has_field. rewrite Hcopy. done.
Qed.

Lemma stage_lossless_passes st f :
  f = "channels" ∨ f = "rate" →
  st_fields (stage_lossless G_BYTE_ORDER st) !! f = st_fields st !! f.
Proof.
  intros Hf. unfold stage_lossless.
  rewrite make_lossless_changes_other by (by destruct Hf as [-> | ->]).
  apply stage_copy_lookup; destruct Hf as [-> | ->];
    (done || (unfold fields_used; set_solver)).
Qed.

(** ** The first two templates *)

(** C1: the sequence starts with a template of the input's own family,
    with the input's channels and rate, that for INTEGER offers both
    endiannesses and both signedness values at the input's width and depth
    and for FLOAT has width 32 or 64, native endianness and neither depth nor
    signed; the second template is of the other family, with the same
    channels and rate, under the other family's rules. *)
Theorem transform_caps_lossless_first st :
  ∃ t0 t1 rest,
    transform_caps [st] = Some (t0 :: t1 :: rest) ∧
    gst_structure_get_name t0 = gst_structure_get_name st ∧
    same_channels_and_rate st t0 ∧
    gst_structure_get_name t1 = other_format_name st ∧
    same_channels_and_rate st t1 ∧
    (if isfloat_structure st
     then float_template G_BYTE_ORDER t0 ∧ offers_all_layouts t1 ∧
          gst_structure_get_value t1 "width" = gst_structure_get_value t0 "width"
     else offers_all_layouts t0 ∧
          gst_structure_get_value t0 "width" = gst_structure_get_value st "width" ∧
          (∀ d, gst_structure_get_value st "depth" = Some d →
                gst_structure_get_value t0 "depth" = Some d) ∧
          float_template G_BYTE_ORDER t1).
Proof.
  eexists _, _, _. split; [apply transform_caps_stages|].
  unfold gst_structure_get_name, same_channels_and_rate, gst_structure_get_value,
    other_format_name.
  rewrite stage_lossless_name, other_format_name_eq.
  rewrite !stage_lossless_passes by auto.
  assert (Hother : ∀ f, f = "channels" ∨ f = "rate" →
            st_fields (other (stage_lossless G_BYTE_ORDER st) (isfloat_structure st)) !! f
            = st_fields st !! f).
  { intros f Hf. unfold other_format.
    destruct (isfloat_structure st);
      (rewrite make_lossless_changes_other by (by destruct Hf as [-> | ->]));
      cbn [st_fields gst_structure_set_name]; by apply stage_lossless_passes. }
  rewrite !Hother by auto.
  do 4 (split; [done|]).
  unfold other_format, stage_lossless.
  destruct (isfloat_structure st) eqn:Hfl.
  - split; [apply float_template_lossless|].
    split; [apply offers_all_layouts_lossless|].
    unfold gst_structure_get_value. cbn. by lookup_fields.
  - split; [apply offers_all_layouts_lossless|].
    split; [|split; [|apply float_template_lossless]].
    + rewrite make_lossless_changes_int_width by done.
      apply stage_copy_lookup; [unfold fields_used; set_solver|done].
    + intros d Hd. rewrite make_lossless_changes_int_width by done.
      by apply stage_copy_depth.
Qed.

(** ** FLOAT templates *)

Lemma stage_lossless_float st :
  isfloat_structure st = true →
  float_template G_BYTE_ORDER (stage_lossless G_BYTE_ORDER st).
Proof.
  intros Hfl. unfold stage_lossless. rewrite Hfl. apply float_template_lossless.
Qed.

Lemma stage_increase_float st :
  isfloat_structure st = true →
  float_template G_BYTE_ORDER (stage_increase G_BYTE_ORDER st).
Proof.
  intros Hfl. unfold stage_increase, stage_lossless. rewrite Hfl. cbn [negb].
  destruct (gst_structure_get_int st "channels") as [c|];
    [destruct (c =? 8); apply float_template_set_channels|];
    apply float_template_lossless.
Qed.

Lemma stage_channels_float st :
  isfloat_structure st = true →
  float_template G_BYTE_ORDER (stage_channels G_BYTE_ORDER st).
Proof.
  intros Hfl. unfold stage_channels, stage_after_reduce. rewrite Hfl.
  rewrite andb_false_r. apply float_template_set_channels.
  by apply stage_increase_float.
Qed.

(** C10: every template of the sequence named audio/x-raw-float has
    width 32 or 64, the native endianness, and neither depth nor signed. *)
Theorem transform_caps_float_templates st ret t :
  transform_caps [st] = Some ret →
  t ∈ ret →
  gst_structure_get_name t = raw_float_name →
  float_template G_BYTE_ORDER t.
Proof.
  rewrite transform_caps_stages. intros [= <-] Hin Hname.
  unfold gst_structure_get_name in Hname.
  destruct (isfloat_structure st) eqn:Hfl.
  - unfold depth_reduction_templates in Hin. rewrite Hfl in Hin.
    assert (Hint : ∀ s, st_name (other s true) = raw_float_name → False).
    { intros s. by rewrite other_format_name_eq. }
    destruct (depth_reduction_guard st); cbn [app] in Hin; cbv iota in Hin;
      repeat (apply elem_of_cons in Hin as [-> | Hin]);
      try (by apply elem_of_nil in Hin);
      try (exfalso; exact (Hint _ Hname));
      first [ by apply stage_lossless_float
            | by apply stage_increase_float
            | by apply stage_channels_float ].
  - pose proof (isfloat_false_name _ Hfl) as Hne.
    unfold depth_reduction_templates in Hin. rewrite Hfl in Hin.
    destruct (depth_reduction_guard st); cbn [app] in Hin; cbv iota in Hin;
      repeat (apply elem_of_cons in Hin as [-> | Hin]);
      try (by apply elem_of_nil in Hin);
      try apply float_template_lossless;
      exfalso; apply Hne; rewrite <- Hname;
      by rewrite ?stage_lossless_name, ?stage_increase_name,
           ?stage_reduce_depth_name, ?stage_channels_name, ?stage_any_name.
Qed.

(** ** The depth reduction *)

(** Widths 16 to 32 in steps of 8, depth 16 to 32, whatever the structure. *)
Lemma reduce_depth_fields s :
  let t := gst_structure_set_value (set_structure_widths s 16 32)
             "depth" (GIntRange 16 32) in
  gst_structure_get_value t "width" = Some (GList [GInt 16; GInt 24; GInt 32]) ∧
  gst_structure_get_value t "depth" = Some (GIntRange 16 32).
Proof. unfold gst_structure_get_value. cbn. by lookup_fields. Qed.

Lemma has_int_16_24_32 n :
  has_int (GList [GInt 16; GInt 24; GInt 32]) n = true → 16 ≤ n ≤ 32.
Proof.
  cbn [has_int existsb]. rewrite !orb_true_iff, !Z.eqb_eq.
  intros [?|[?|[?|?]]]; (lia || done).
Qed.

Lemma has_int_range lo hi n :
  has_int (GIntRange lo hi) n = true ↔ lo ≤ n ≤ hi.
Proof. cbn [has_int]. rewrite andb_true_iff, !Z.leb_le. done. Qed.

Lemma stage_reduce_depth_template st :
  let t := stage_reduce_depth G_BYTE_ORDER st in
  gst_structure_get_value t "width" = Some (GList [GInt 16; GInt 24; GInt 32]) ∧
  gst_structure_get_value t "depth" = Some (GIntRange 16 32).
Proof. apply reduce_depth_fields. Qed.

Lemma other_int_keeps s f :
  f ≠ "endianness" → f ≠ "signed" →
  gst_structure_get_value (other s true) f = gst_structure_get_value s f.
Proof.
  intros. unfold other_format, gst_structure_get_value.
  by rewrite make_lossless_changes_int_width.
Qed.

Lemma depth_reduction_guard_spec st :
  depth_reduction_guard st = true ↔ width_absent_or_above_16 st.
Proof.
  unfold depth_reduction_guard, width_absent_or_above_16.
  destruct (gst_structure_get_int st "width") as [w|].
  - rewrite Z.gtb_gt. split.
    + intros Hw w' [= <-]. lia.
    + intros Hw. specialize (Hw w eq_refl). lia.
  - split; [intros _ w' Hw'; done|done].
Qed.

(** C5: between the four templates of the first two steps and the
    last three, the function emits the depth-reduction template exactly when
    the input's width is absent or greater than 16; that template offers
    widths and depths from 16 to 32 and none below, and it is never an
    audio/x-raw-float template: for a FLOAT input it is the INTEGER
    counterpart, otherwise it keeps the input's name. *)
Theorem transform_caps_depth_reduction st :
  ∃ before step after,
    transform_caps [st] = Some (before ++ step ++ after) ∧
    length before = 4%nat ∧ length after = 3%nat ∧
    (step = [] ∨ ∃ t, step = [t]) ∧
    (step ≠ [] ↔ width_absent_or_above_16 st) ∧
    ∀ t, t ∈ step →
      reduced_depth_template t ∧
      gst_structure_get_name t =
        (if isfloat_structure st then raw_int_name else gst_structure_get_name st).
Proof.
  eexists _, (depth_reduction_templates G_BYTE_ORDER st), _.
  split; [apply transform_caps_stages|].
  do 2 (split; [done|]).
  rewrite <- depth_reduction_guard_spec. unfold depth_reduction_templates.
  destruct (depth_reduction_guard st).
  - split; [right; eauto|]. split; [done|].
    intros t ->%list_elem_of_singleton.
    assert (Hname : gst_structure_get_name
              (if isfloat_structure st
               then other (stage_reduce_depth G_BYTE_ORDER st) true
               else stage_reduce_depth G_BYTE_ORDER st)
            = (if isfloat_structure st then raw_int_name
               else gst_structure_get_name st)).
    { unfold gst_structure_get_name. destruct (isfloat_structure st).
      - by rewrite other_format_name_eq.
      - by rewrite stage_reduce_depth_name. }
    split; [|done]. split.
    + rewrite Hname. destruct (isfloat_structure st) eqn:Hfl; [done|].
      by apply isfloat_false_name.
    + destruct (stage_reduce_depth_template st) as [Hw Hd].
      exists (GList [GInt 16; GInt 24; GInt 32]), (GIntRange 16 32).
      split; [|split]; [destruct (isfloat_structure st);
        rewrite ?other_int_keeps by done; done ..|].
      split; [apply has_int_16_24_32|].
      split; [intros n; by rewrite has_int_range|done].
  - split; [by left|]. split; [split; done|].
    intros t Hin. by apply elem_of_nil in Hin.
Qed.

(** ** The envelope of the last template *)

Lemma value_subset_refl v : value_subset v v.
Proof. by split. Qed.

Lemma value_subset_int_range n lo hi :
  lo ≤ n ≤ hi → value_subset (GInt n) (GIntRange lo hi).
Proof.
  intros Hn. split; [|done]. intros m. cbn [has_int].
  rewrite Z.eqb_eq, andb_true_iff, !Z.leb_le. lia.
Qed.

Lemma value_subset_range_range a b lo hi :
  lo ≤ a → b ≤ hi → value_subset (GIntRange a b) (GIntRange lo hi).
Proof.
  intros Ha Hb. split; [|done]. intros m. rewrite !has_int_range. lia.
Qed.

Lemma value_subset_int_inv n v :
  value_subset (GInt n) v → has_int v n = true.
Proof. intros [Hi _]. apply Hi. cbn [has_int]. by apply Z.eqb_eq. Qed.

Lemma supported_widths_inv w :
  has_int supported_widths w = true → w = 8 ∨ w = 16 ∨ w = 24 ∨ w = 32.
Proof.
  unfold supported_widths. cbn [has_int existsb].
  rewrite !orb_true_iff, !Z.eqb_eq. intros [?|[?|[?|[?|?]]]]; auto. done.
Qed.

(** Widening a supported width up to 32 stays within the supported widths. *)
Lemma value_subset_widths (ws : list Z) :
  (∀ w, w ∈ ws → has_int supported_widths w = true) →
  value_subset (GList (GInt <$> ws)) supported_widths.
Proof.
  intros Hws. split.
  - intros n. cbn [has_int]. rewrite existsb_exists.
    intros (v & Hv & Hn). apply list_elem_of_In, list_elem_of_fmap in Hv.
    destruct Hv as (w & -> & Hw). cbn [has_int] in Hn.
    apply Z.eqb_eq in Hn as <-. by apply Hws.
  - intros b. cbn [has_boolean]. rewrite existsb_exists.
    intros (v & Hv & Hb). apply list_elem_of_In, list_elem_of_fmap in Hv.
    by destruct Hv as (w & -> & Hw).
Qed.

Lemma set_structure_widths_supported s w :
  has_int supported_widths w = true →
  ∃ v, set_structure_widths s w 32 = gst_structure_set_value s "width" v ∧
       value_subset v supported_widths.
Proof.
  intros [-> | [-> | [-> | ->]]]%supported_widths_inv.
  - exists (GList (GInt <$> [8; 16; 24; 32])). split; [reflexivity|].
    apply value_subset_widths. intros w Hw. set_unfold. by intuition subst.
  - exists (GList (GInt <$> [16; 24; 32])). split; [reflexivity|].
    apply value_subset_widths. intros w Hw. set_unfold. by intuition subst.
  - exists (GList (GInt <$> [24; 32])). split; [reflexivity|].
    apply value_subset_widths. intros w Hw. set_unfold. by intuition subst.
  - exists (GInt 32). split; [reflexivity|]. split; [|done].
    intros n. unfold supported_widths. cbn [has_int existsb].
    rewrite !orb_true_iff. auto.
Qed.

Section Envelope.

Variable st : GstStructure.

Lemma in_envelope_set_value t b f v :
  in_envelope st b t → field_within st b f v →
  in_envelope st b (gst_structure_set_value t f v).
Proof.
  intros Ht Hv g u. unfold gst_structure_get_value. cbn.
  intros [[<- <-]|[_ Hg]]%lookup_insert_Some; [done|]. by apply Ht.
Qed.

Lemma in_envelope_remove_field t b f :
  in_envelope st b t → in_envelope st b (gst_structure_remove_field t f).
Proof.
  intros Ht g u. unfold gst_structure_get_value. cbn.
  intros [_ Hg]%lookup_delete_Some. by apply Ht.
Qed.

Lemma field_within_weaken b f v : field_within st b f v → field_within st false f v.
Proof.
  unfold field_within. intros [?|[?|[?|[?|[?|[? _]]]]]]; auto 10.
  do 5 right. done.
Qed.

Lemma in_envelope_weaken t b : in_envelope st b t → in_envelope st false t.
Proof. intros Ht f v Hf. eapply field_within_weaken. by apply Ht. Qed.

(** Setting a supported width makes the width constraint hold. *)
Lemma in_envelope_set_width t b v :
  in_envelope st b t → value_subset v supported_widths →
  in_envelope st true (gst_structure_set_value t "width" v).
Proof.
  intros Ht Hv g u. unfold gst_structure_get_value. cbn.
  intros [[<- <-]|[Hne Hg]]%lookup_insert_Some.
  - do 5 right. done.
  - destruct (Ht g u Hg) as [?|[?|[?|[?|[?|[? _]]]]]]; unfold field_within; auto 10.
    done.
Qed.

Lemma in_envelope_lossless_int t b :
  in_envelope st b t → in_envelope st b (lossless t false).
Proof.
  intros Ht. unfold make_lossless_changes.
  apply in_envelope_set_value; [apply in_envelope_set_value; [done|]|].
  - do 2 right. left. split; [done|apply value_subset_refl].
  - do 3 right. left. split; [done|apply value_subset_refl].
Qed.

Lemma in_envelope_lossless_float t b :
  G_BYTE_ORDER = G_LITTLE_ENDIAN ∨ G_BYTE_ORDER = G_BIG_ENDIAN →
  in_envelope st b t → in_envelope st false (lossless t true).
Proof.
  intros Hbo Ht. unfold make_lossless_changes, set_structure_widths_32_and_64.
  apply in_envelope_set_value; [apply in_envelope_set_value|].
  - do 2 apply in_envelope_remove_field. by eapply in_envelope_weaken.
  - do 5 right. done.
  - do 2 right. left. split; [done|]. split; [|done].
    intros n. unfold both_endiannesses. cbn [has_int existsb].
    rewrite !orb_true_iff, !Z.eqb_eq. destruct Hbo; intuition congruence.
Qed.

Lemma in_envelope_other t b isfloat :
  G_BYTE_ORDER = G_LITTLE_ENDIAN ∨ G_BYTE_ORDER = G_BIG_ENDIAN →
  in_envelope st b t → in_envelope st (b && isfloat) (other t isfloat).
Proof.
  intros Hbo Ht. unfold other_format. destruct isfloat.
  - rewrite andb_true_r. by apply in_envelope_lossless_int.
  - rewrite andb_false_r. by eapply in_envelope_lossless_float.
Qed.

(** A template within the envelope is below the last template. *)
Lemma in_envelope_subset t b final :
  in_envelope st b t → fallback_template st final →
  template_subset_but "width" t final ∧
  (b = true → template_subset t final).
Proof.
  intros Ht (Hc & Hd & Hw & He & Hs & Hr).
  assert (Hall : ∀ f v, gst_structure_get_value t f = Some v →
            (f ≠ "width" ∨ b = true) →
            ∃ v', gst_structure_get_value final f = Some v' ∧ value_subset v v').
  { intros f v Hf Hcase.
    destruct (Ht f v Hf) as [[-> ?]|[[-> ?]|[[-> ?]|[[-> ?]|[[-> ?]|[-> Hsub]]]]]];
      eauto.
    - exists v. split; [congruence|apply value_subset_refl].
    - destruct Hcase as [?|Hb]; [done|]. eauto. }
  split.
  - intros f v Hne Hf. apply Hall; auto.
  - intros Hb f v Hf. apply Hall; auto.
Qed.

End Envelope.

(** ** The stages lie within the envelope *)

Lemma stage_copy_lookup_Some st f v :
  st_fields (stage_copy st) !! f = Some v →
  f ∈ fields_used ∧
  (st_fields st !! f = Some v ∨
   (f = "depth" ∧ isfloat_structure st = false ∧
    ∃ w, gst_structure_get_int st "width" = Some w ∧ v = GInt w)).
Proof.
  unfold stage_copy.
  set (copy := fold_left (copy_field st) fields_used
                 (gst_structure_empty_new (gst_structure_get_name st))).
  assert (Hcopy : ∀ g u, st_fields copy !! g = Some u →
            g ∈ fields_used ∧ st_fields st !! g = Some u).
  { intros g u. unfold copy. rewrite copy_fields_lookup.
    cbn [st_fields gst_structure_empty_new].
    rewrite lookup_empty. destruct (decide (g ∈ fields_used)); [|done].
    by destruct (st_fields st !! g). }
  destruct (isfloat_structure st); cbn [negb].
  { intros Hf. destruct (Hcopy _ _ Hf). auto. }
  destruct (gst_structure_has_field copy "depth").
  { intros Hf. destruct (Hcopy _ _ Hf). auto. }
  destruct (gst_structure_get_int copy "width") as [w|] eqn:Hw.
  2:{ intros Hf. destruct (Hcopy _ _ Hf). auto. }
  cbn [st_fields gst_structure_set_value].
  intros [[<- <-]|[_ Hf]]%lookup_insert_Some.
  - split; [unfold fields_used; set_unfold; auto|]. right. do 2 (split; [done|]).
    exists w. split; [|done]. unfold gst_structure_get_int in *.
    destruct (st_fields copy !! "width") as [[]|] eqn:Hcw; try done.
    pose proof (Hcopy _ _ Hcw) as [_ Hst]. by rewrite Hst.
  - destruct (Hcopy _ _ Hf). auto.
Qed.

Lemma set_structure_widths_8_32 s :
  st_fields (set_structure_widths s 8 32) !! "width" = Some supported_widths.
Proof.
  change (set_structure_widths s 8 32)
    with (gst_structure_set_value s "width" supported_widths).
  cbn [st_fields gst_structure_set_value]. apply lookup_insert_eq.
Qed.

Section StagesEnvelope.

Variable st : GstStructure.
Hypothesis Hbyte_order :
  G_BYTE_ORDER = G_LITTLE_ENDIAN ∨ G_BYTE_ORDER = G_BIG_ENDIAN.
Hypothesis Hsupported : within_supported_ranges st.

Lemma input_channels_range c :
  gst_structure_get_int st "channels" = Some c → 1 ≤ c ≤ 8.
Proof.
  destruct Hsupported as [Hc _]. unfold gst_structure_get_int, gst_structure_get_value in *.
  destruct (st_fields st !! "channels") as [[]|] eqn:Hl; try done.
  intros [= ->]. apply has_int_range, value_subset_int_inv. by apply Hc.
Qed.

Lemma input_width_supported w :
  isfloat_structure st = false →
  gst_structure_get_int st "width" = Some w → has_int supported_widths w = true.
Proof.
  intros Hfl. destruct Hsupported as [_ Hi]. destruct (Hi Hfl) as [Hw _].
  unfold gst_structure_get_int, gst_structure_get_value in *.
  destruct (st_fields st !! "width") as [[]|] eqn:Hl; try done.
  intros [= ->]. apply value_subset_int_inv. by apply Hw.
Qed.

Lemma input_depth_range d :
  isfloat_structure st = false →
  gst_structure_get_int st "depth" = Some d → 1 ≤ d ≤ 32.
Proof.
  intros Hfl. destruct Hsupported as [_ Hi]. destruct (Hi Hfl) as [_ Hd].
  unfold gst_structure_get_int, gst_structure_get_value in *.
  destruct (st_fields st !! "depth") as [[]|] eqn:Hl; try done.
  intros [= ->]. apply has_int_range, value_subset_int_inv. by apply Hd.
Qed.

Lemma stage_lossless_envelope :
  in_envelope st (negb (isfloat_structure st)) (stage_lossless G_BYTE_ORDER st).
Proof.
  assert (Hcopy : ∀ f v, st_fields (stage_copy st) !! f = Some v →
            f ≠ "endianness" → f ≠ "signed" →
            isfloat_structure st = false ∨ (f ≠ "width" ∧ f ≠ "depth") →
            field_within st (negb (isfloat_structure st)) f v).
  { intros f v Hf Hne Hns Hcase.
    destruct (stage_copy_lookup_Some _ _ _ Hf) as [Hin Hv].
    destruct Hsupported as [Hc Hi]. unfold gst_structure_get_value in *.
    unfold fields_used in Hin. set_unfold in Hin.
    destruct Hin as [-> | [-> | [-> | [-> | [-> | [-> | []]]]]]]; try done.
    - (* width *)
      destruct Hcase as [Hfl|[? _]]; [|done]. destruct (Hi Hfl) as [Hw _].
      destruct Hv as [Hv|[? _]]; [|done]. do 5 right. split; [done|]. intros _. by apply Hw.
    - (* depth *)
      destruct Hcase as [Hfl|[_ ?]]; [|done]. destruct (Hi Hfl) as [_ Hd].
      right. left. split; [done|].
      destruct Hv as [Hv|(_ & _ & w & Hw & ->)]; [by apply Hd|].
      apply value_subset_int_range.
      pose proof (input_width_supported w Hfl Hw) as Hsw.
      apply supported_widths_inv in Hsw. lia.
    - (* rate *)
      destruct Hv as [Hv|[? _]]; [|done]. do 4 right. left. done.
    - (* channels *)
      destruct Hv as [Hv|[? _]]; [|done]. left. split; [done|]. by apply Hc. }
  unfold stage_lossless. intros f v. unfold gst_structure_get_value.
  destruct (isfloat_structure st) eqn:Hfl; cbn.
  - intros [[<- <-]|[Hne Hf]]%lookup_insert_Some.
    { do 2 right. left. split; [done|]. split; [|done].
      intros n. unfold both_endiannesses. cbn [has_int existsb].
      rewrite !orb_true_iff, !Z.eqb_eq. destruct Hbyte_order; intuition congruence. }
    apply lookup_insert_Some in Hf as [[<- <-]|[Hnw Hf]].
    { do 5 right. done. }
    apply lookup_delete_Some in Hf as [Hns Hf].
    apply lookup_delete_Some in Hf as [Hnd Hf].
    apply (Hcopy f v Hf); auto.
  - intros [[<- <-]|[Hns Hf]]%lookup_insert_Some.
    { do 3 right. left. split; [done|apply value_subset_refl]. }
    apply lookup_insert_Some in Hf as [[<- <-]|[Hne Hf]].
    { do 2 right. left. split; [done|apply value_subset_refl]. }
    apply (Hcopy f v Hf); auto.
Qed.

Lemma stage_increase_envelope :
  in_envelope st (negb (isfloat_structure st)) (stage_increase G_BYTE_ORDER st).
Proof.
  unfold stage_increase.
  assert (Hchan : ∀ s b, in_envelope st b s →
    in_envelope st b
      match gst_structure_get_int st "channels" with
      | Some channels =>
          if channels =? 8 then gst_structure_set_value s "channels" (GInt 8)
          else gst_structure_set_value s "channels" (GIntRange channels 8)
      | None => s
      end).
  { intros s b Hs. destruct (gst_structure_get_int st "channels") as [c|] eqn:Hc; [|done].
    pose proof (input_channels_range c Hc).
    destruct (c =? 8); apply in_envelope_set_value; try done; left; (split; [done|]).
    - by apply value_subset_int_range.
    - apply value_subset_range_range; lia. }
  apply Hchan. destruct (isfloat_structure st) eqn:Hfl; cbn [negb].
  { pose proof stage_lossless_envelope as H. by rewrite Hfl in H. }
  assert (Hw : in_envelope st true
            match gst_structure_get_int st "width" with
            | Some width => set_structure_widths (stage_lossless G_BYTE_ORDER st) width 32
            | None => stage_lossless G_BYTE_ORDER st
            end).
  { pose proof stage_lossless_envelope as H. rewrite Hfl in H. cbn [negb] in H.
    destruct (gst_structure_get_int st "width") as [w|] eqn:Hgw; [|done].
    destruct (set_structure_widths_supported (stage_lossless G_BYTE_ORDER st) w)
      as (v & -> & Hv); [by apply input_width_supported|].
    by eapply in_envelope_set_width. }
  destruct (gst_structure_get_int st "depth") as [d|] eqn:Hd; [|done].
  pose proof (input_depth_range d Hfl Hd).
  destruct (d =? 32); apply in_envelope_set_value; try done; right; left;
    (split; [done|]).
  - by apply value_subset_int_range.
  - apply value_subset_range_range; lia.
Qed.

Lemma reduce_depth_envelope s b :
  in_envelope st b s →
  in_envelope st true
    (gst_structure_set_value (set_structure_widths s 16 32) "depth" (GIntRange 16 32)).
Proof.
  intros Hs. apply in_envelope_set_value.
  - destruct (set_structure_widths_supported s 16) as (v & -> & Hv); [done|].
    by eapply in_envelope_set_width.
  - right. left. split; [done|]. by apply value_subset_range_range.
Qed.

Lemma stage_after_reduce_envelope :
  in_envelope st (negb (isfloat_structure st)) (stage_after_reduce G_BYTE_ORDER st).
Proof.
  unfold stage_after_reduce.
  destruct (isfloat_structure st) eqn:Hfl; cbn [negb].
  - rewrite andb_false_r. pose proof stage_increase_envelope as H.
    by rewrite Hfl in H.
  - destruct (depth_reduction_guard st); cbn [andb].
    + eapply reduce_depth_envelope, stage_increase_envelope.
    + pose proof stage_increase_envelope as H. by rewrite Hfl in H.
Qed.

Lemma stage_channels_envelope :
  in_envelope st (negb (isfloat_structure st)) (stage_channels G_BYTE_ORDER st).
Proof.
  apply in_envelope_set_value; [apply stage_after_reduce_envelope|].
  left. split; [done|apply value_subset_refl].
Qed.

(** ** The last template *)

Lemma stage_increase_keeps f :
  f ≠ "width" → f ≠ "depth" → f ≠ "channels" →
  st_fields (stage_increase G_BYTE_ORDER st) !! f
  = st_fields (stage_lossless G_BYTE_ORDER st) !! f.
Proof.
  intros. unfold stage_increase.
  destruct (gst_structure_get_int st "channels") as [c|];
    [destruct (c =? 8)|];
    (destruct (negb (isfloat_structure st));
     [destruct (gst_structure_get_int st "depth") as [d|];
      [destruct (d =? 32)|];
      destruct (gst_structure_get_int st "width") as [w|]|]);
    cbn [st_fields gst_structure_set_value]; by lookup_fields.
Qed.

Lemma stage_channels_keeps f :
  f ≠ "width" → f ≠ "depth" → f ≠ "channels" →
  st_fields (stage_channels G_BYTE_ORDER st) !! f
  = st_fields (stage_lossless G_BYTE_ORDER st) !! f.
Proof.
  intros. rewrite <- stage_increase_keeps by done.
  unfold stage_channels, stage_after_reduce, stage_reduce_depth.
  destruct (_ && _); cbn [st_fields gst_structure_set_value]; by lookup_fields.
Qed.

Lemma stage_any_fields :
  let t := stage_any G_BYTE_ORDER st in
  gst_structure_get_value t "channels" = Some supported_channels ∧
  gst_structure_get_value t "depth" = Some supported_depths ∧
  gst_structure_get_value t "width" = Some supported_widths ∧
  gst_structure_get_value t "rate" = gst_structure_get_value st "rate" ∧
  ∀ f, f ≠ "width" → f ≠ "depth" → f ≠ "channels" →
       gst_structure_get_value t f
       = gst_structure_get_value (stage_lossless G_BYTE_ORDER st) f.
Proof.
  assert (Hkeep : ∀ f, f ≠ "width" → f ≠ "depth" → f ≠ "channels" →
            gst_structure_get_value (stage_any G_BYTE_ORDER st) f
            = gst_structure_get_value (stage_lossless G_BYTE_ORDER st) f).
  { intros f ???. unfold gst_structure_get_value.
    rewrite <- stage_channels_keeps by done.
    unfold stage_any. cbn [st_fields gst_structure_set_value]. by lookup_fields. }
  cbv zeta. split; [|split; [|split; [|split; [|done]]]].
  - unfold gst_structure_get_value, stage_any, stage_channels.
    cbn [st_fields gst_structure_set_value]. by lookup_fields.
  - unfold gst_structure_get_value, stage_any.
    cbn [st_fields gst_structure_set_value]. by lookup_fields.
  - unfold gst_structure_get_value, stage_any.
    cbn [st_fields gst_structure_set_value]. lookup_fields.
    apply set_structure_widths_8_32.
  - rewrite Hkeep by done. unfold gst_structure_get_value.
    by rewrite stage_lossless_passes by auto.
Qed.

Lemma final_template_fallback :
  fallback_template st
    (if isfloat_structure st
     then other (stage_any G_BYTE_ORDER st) true
     else stage_any G_BYTE_ORDER st).
Proof.
  destruct stage_any_fields as (Hc & Hd & Hw & Hr & Hkeep).
  unfold fallback_template.
  destruct (isfloat_structure st) eqn:Hfl.
  - rewrite !(other_int_keeps _ "channels"), !(other_int_keeps _ "depth"),
      !(other_int_keeps _ "width"), !(other_int_keeps _ "rate") by done.
    do 3 (split; [done|]). split; [|split; [|done]];
      apply (offers_all_layouts_lossless
               (gst_structure_set_name (stage_any G_BYTE_ORDER st) raw_int_name)).
  - do 3 (split; [done|]). split; [|split; [|done]].
    + rewrite Hkeep by done. unfold stage_lossless. rewrite Hfl.
      apply offers_all_layouts_lossless.
    + rewrite Hkeep by done. unfold stage_lossless. rewrite Hfl.
      apply offers_all_layouts_lossless.
Qed.

(** ** Loosening *)

Lemma bounded_subset t b final :
  fallback_template st final →
  in_envelope st b t →
  (b = false → gst_structure_get_value t "width" = Some float_widths) →
  template_subset_but "width" t final ∧
  (gst_structure_get_value t "width" ≠ Some float_widths → template_subset t final).
Proof.
  intros Hfinal Henv Hwidth.
  destruct (in_envelope_subset st t b final Henv Hfinal) as [Hbut Hfull].
  split; [done|]. intros Hne. apply Hfull. destruct b; [done|]. by destruct Hne; auto.
Qed.

(** A stage and its counterpart in the other format. *)
Lemma stage_pair_subset s final t :
  fallback_template st final →
  in_envelope st (negb (isfloat_structure st)) s →
  (isfloat_structure st = true → float_template G_BYTE_ORDER s) →
  t ∈ [s; other s (isfloat_structure st)] →
  template_subset_but "width" t final ∧
  (gst_structure_get_value t "width" ≠ Some float_widths → template_subset t final).
Proof.
  intros Hfinal Henv Hfloat Hin.
  apply elem_of_cons in Hin as [-> | Hin];
    [|apply list_elem_of_singleton in Hin as ->].
  - eapply bounded_subset; [done..|].
    intros Hb%negb_false_iff. by destruct (Hfloat Hb).
  - eapply bounded_subset; [done|by apply in_envelope_other|].
    intros _. destruct (isfloat_structure st) eqn:Hfl.
    + rewrite other_int_keeps by done. by destruct (Hfloat eq_refl).
    + by destruct (float_template_lossless (gst_structure_set_name s raw_float_name)).
Qed.

Lemma depth_reduction_subset final t :
  fallback_template st final →
  t ∈ depth_reduction_templates G_BYTE_ORDER st →
  template_subset t final.
Proof.
  intros Hfinal. unfold depth_reduction_templates.
  destruct (depth_reduction_guard st); [|by intros ?%elem_of_nil].
  intros ->%list_elem_of_singleton.
  assert (Henv : in_envelope st true (stage_reduce_depth G_BYTE_ORDER st)).
  { eapply reduce_depth_envelope, stage_increase_envelope. }
  destruct (isfloat_structure st).
  - eapply in_envelope_subset; [|done..].
    by apply (in_envelope_other st _ true true).
  - eapply in_envelope_subset; done.
Qed.

End StagesEnvelope.

(** C2, as the code has it: for an input within the supported ranges the
    sequence is not empty and ends with the integer fallback template
    (channels 1 to 8, depth 1 to 32, widths 8 to 32, both endiannesses and
    signs, the input's rate).  That template offers whatever an earlier
    template offers in every field but the width, and in the width too unless
    the earlier template offers the widths 32 and 64 of the float format. *)
Theorem transform_caps_loosening st :
  G_BYTE_ORDER = G_LITTLE_ENDIAN ∨ G_BYTE_ORDER = G_BIG_ENDIAN →
  within_supported_ranges st →
  ∃ earlier final,
    transform_caps [st] = Some (earlier ++ [final]) ∧
    fallback_template st final ∧
    gst_structure_get_name final =
      (if isfloat_structure st then raw_int_name else gst_structure_get_name st) ∧
    ∀ t, t ∈ earlier →
      template_subset_but "width" t final ∧
      (gst_structure_get_value t "width" ≠ Some float_widths →
       template_subset t final).
Proof.
  intros Hbo Hsup.
  pose proof (final_template_fallback st) as Hfinal.
  exists ([stage_lossless G_BYTE_ORDER st;
           other (stage_lossless G_BYTE_ORDER st) (isfloat_structure st);
           stage_increase G_BYTE_ORDER st;
           other (stage_increase G_BYTE_ORDER st) (isfloat_structure st)]
          ++ depth_reduction_templates G_BYTE_ORDER st
          ++ [stage_channels G_BYTE_ORDER st;
              other (stage_channels G_BYTE_ORDER st) (isfloat_structure st)]),
    (if isfloat_structure st
     then other (stage_any G_BYTE_ORDER st) true
     else stage_any G_BYTE_ORDER st).
  split.
  { rewrite transform_caps_stages. f_equal.
    rewrite <- (app_assoc [_; _; _; _]), <- (app_assoc (depth_reduction_templates _ _)).
    done. }
  split; [done|]. split.
  { unfold gst_structure_get_name. destruct (isfloat_structure st).
    - by rewrite other_format_name_eq.
    - by rewrite stage_any_name. }
  intros t Hin.
  change [stage_lossless G_BYTE_ORDER st;
          other (stage_lossless G_BYTE_ORDER st) (isfloat_structure st);
          stage_increase G_BYTE_ORDER st;
          other (stage_increase G_BYTE_ORDER st) (isfloat_structure st)]
    with ([stage_lossless G_BYTE_ORDER st;
           other (stage_lossless G_BYTE_ORDER st) (isfloat_structure st)]
          ++ [stage_increase G_BYTE_ORDER st;
              other (stage_increase G_BYTE_ORDER st) (isfloat_structure st)]) in Hin.
  rewrite !elem_of_app in Hin. destruct Hin as [[Hin|Hin]|[Hin|Hin]].
  - apply (stage_pair_subset st Hbo (stage_lossless G_BYTE_ORDER st) _ t Hfinal);
      [by apply stage_lossless_envelope|apply stage_lossless_float|done].
  - apply (stage_pair_subset st Hbo (stage_increase G_BYTE_ORDER st) _ t Hfinal);
      [by apply stage_increase_envelope|apply stage_increase_float|done].
  - assert (Hsub : template_subset t
              (if isfloat_structure st
               then other (stage_any G_BYTE_ORDER st) true
               else stage_any G_BYTE_ORDER st))
      by (by eapply depth_reduction_subset).
    split; [|done]. intros f v _. apply Hsub.
  - apply (stage_pair_subset st Hbo (stage_channels G_BYTE_ORDER st) _ t Hfinal);
      [by apply stage_channels_envelope|apply stage_channels_float|done].
Qed.

End NegotiationFacts.

(** C10 at 16 bit stereo: the second template is the FLOAT counterpart
    of the first. *)
Lemma transform_caps_float_templates_witness :
  let ret :=
    [stage_lossless G_LITTLE_ENDIAN int16_stereo;
     other_format G_LITTLE_ENDIAN (stage_lossless G_LITTLE_ENDIAN int16_stereo) false;
     stage_increase G_LITTLE_ENDIAN int16_stereo;
     other_format G_LITTLE_ENDIAN (stage_increase G_LITTLE_ENDIAN int16_stereo) false;
     stage_channels G_LITTLE_ENDIAN int16_stereo;
     other_format G_LITTLE_ENDIAN (stage_channels G_LITTLE_ENDIAN int16_stereo) false;
     stage_any G_LITTLE_ENDIAN int16_stereo] in
  gst_audio_convert_transform_caps G_LITTLE_ENDIAN [int16_stereo] = Some ret ∧
  float_template G_LITTLE_ENDIAN
    (other_format G_LITTLE_ENDIAN (stage_lossless G_LITTLE_ENDIAN int16_stereo) false).
Proof.
  cbv zeta. split; [vm_compute; reflexivity|].
  eapply (transform_caps_float_templates G_LITTLE_ENDIAN int16_stereo).
  - vm_compute. reflexivity.
  - apply list_elem_of_further, list_elem_of_here.
  - vm_compute. reflexivity.
Defined.

(** The 16 bit stereo input lies within the supported ranges. *)
Lemma int16_stereo_supported : within_supported_ranges int16_stereo.
Proof.
  split; [|intros _; split]; intros v Hv; vm_compute in Hv; injection Hv as <-.
  - by apply value_subset_int_range.
  - split; [|done]. intros n. unfold supported_widths. cbn [has_int existsb].
    rewrite !orb_true_iff. auto.
  - by apply value_subset_int_range.
Qed.

(** C2 at 16 bit stereo on a little endian host. *)
Lemma transform_caps_loosening_witness :
  ∃ earlier final,
    gst_audio_convert_transform_caps G_LITTLE_ENDIAN [int16_stereo]
      = Some (earlier ++ [final]) ∧
    fallback_template int16_stereo final ∧
    gst_structure_get_name final = raw_int_name ∧
    ∀ t, t ∈ earlier →
      template_subset_but "width" t final ∧
      (gst_structure_get_value t "width" ≠ Some float_widths →
       template_subset t final).
Proof.
  apply (transform_caps_loosening G_LITTLE_ENDIAN int16_stereo).
  - left. reflexivity.
  - apply int16_stereo_supported.
Defined.

(** C2 as stated fails: for the fixed 16 bit stereo input the second
    template offers the float width 64, which the last template, with widths
    8 to 32, does not. *)
Lemma transform_caps_not_monotonic :
  gst_caps_is_fixed [int16_stereo] = true ∧
  ¬ ∃ ret,
      gst_audio_convert_transform_caps G_LITTLE_ENDIAN [int16_stereo] = Some ret ∧
      ret ≠ [] ∧ monotonic_loosening ret.
Proof.
  split; [reflexivity|].
  intros (ret & Hret & _ & earlier & final & Heq & Hall).
  assert (Hlist : ret =
    [stage_lossless G_LITTLE_ENDIAN int16_stereo;
     other_format G_LITTLE_ENDIAN (stage_lossless G_LITTLE_ENDIAN int16_stereo) false;
     stage_increase G_LITTLE_ENDIAN int16_stereo;
     other_format G_LITTLE_ENDIAN (stage_increase G_LITTLE_ENDIAN int16_stereo) false;
     stage_channels G_LITTLE_ENDIAN int16_stereo;
     other_format G_LITTLE_ENDIAN (stage_channels G_LITTLE_ENDIAN int16_stereo) false]
    ++ [stage_any G_LITTLE_ENDIAN int16_stereo]).
  { rewrite transform_caps_stages in Hret. by injection Hret as <-. }
  rewrite Hlist in Heq. apply app_inj_tail in Heq as [<- <-].
  destruct (Hall (other_format G_LITTLE_ENDIAN
                    (stage_lossless G_LITTLE_ENDIAN int16_stereo) false)
              (list_elem_of_further _ _ _ (list_elem_of_here _ _)) "width" float_widths)
    as (v' & Hv' & Hsub & _).
  { apply float_template_lossless. }
  destruct (stage_any_fields G_LITTLE_ENDIAN int16_stereo) as (_ & _ & Hw & _).
  rewrite Hw in Hv'. injection Hv' as <-.
  specialize (Hsub 64 eq_refl). discriminate Hsub.
Qed.

(** * Fixation: gst_audio_convert_fixate_caps *)

Section FixationFacts.

(** Clamping gives a value of the range, and none of the range is nearer. *)
Lemma clamp_to_range_nearest lo hi t :
  lo ≤ hi →
  lo ≤ clamp_to_range lo hi t ≤ hi ∧
  ∀ y, lo ≤ y ≤ hi → Z.abs (t - clamp_to_range lo hi t) ≤ Z.abs (t - y).
Proof.
  intros Hle. unfold clamp_to_range.
  destruct (Z.ltb_spec t lo); cbv zeta.
  - destruct (Z.gtb_spec lo hi); [lia|]. split; [lia|]. intros y Hy. lia.
  - destruct (Z.gtb_spec t hi); split; try lia; intros y Hy; lia.
Qed.

(** The scan of a list, started from any best value so far. *)
Lemma nearest_fold t vs : ∀ acc x,
  fold_left (nearest_step t) vs acc = Some x →
  (acc = Some x ∧ ∀ y, GInt y ∈ vs → Z.abs (t - x) ≤ Z.abs (t - y)) ∨
  (∃ l1 l2, vs = l1 ++ GInt x :: l2 ∧
     (∀ b, acc = Some b → Z.abs (t - x) < Z.abs (t - b)) ∧
     (∀ y, GInt y ∈ l1 → Z.abs (t - x) < Z.abs (t - y)) ∧
     (∀ y, GInt y ∈ l2 → Z.abs (t - x) ≤ Z.abs (t - y))).
Proof.
  induction vs as [|v vs IH]; intros acc x; cbn [fold_left].
  - intros ->. left. split; [done|]. by intros y ?%elem_of_nil.
  - intros Hfold. specialize (IH _ _ Hfold).
    assert (Hskip : nearest_step t acc v = acc → (∀ y, v ≠ GInt y) →
      (acc = Some x ∧ ∀ y, GInt y ∈ v :: vs → Z.abs (t - x) ≤ Z.abs (t - y)) ∨
      (∃ l1 l2, v :: vs = l1 ++ GInt x :: l2 ∧
         (∀ b, acc = Some b → Z.abs (t - x) < Z.abs (t - b)) ∧
         (∀ y, GInt y ∈ l1 → Z.abs (t - x) < Z.abs (t - y)) ∧
         (∀ y, GInt y ∈ l2 → Z.abs (t - x) ≤ Z.abs (t - y)))).
    { intros Hacc Hv. rewrite Hacc in IH.
      destruct IH as [[-> Hall]|(l1 & l2 & -> & Hb & H1 & H2)].
      - left. split; [done|]. intros y [Hy|Hy]%elem_of_cons; [|by apply Hall].
        by destruct (Hv y).
      - right. exists (v :: l1), l2. split; [done|]. split; [done|]. split; [|done].
        intros y [Hy|Hy]%elem_of_cons; [|by apply H1]. by destruct (Hv y). }
    destruct v as [a| | | |]; try (apply Hskip; [done|by intros y]).
    clear Hskip. cbn [nearest_step] in IH. destruct acc as [b|].
    + destruct (Z.ltb_spec (Z.abs (t - a)) (Z.abs (t - b))) as [Hlt|Hge].
      * destruct IH as [[[= ->] Hall]|(l1 & l2 & -> & Hb & H1 & H2)].
        -- right. exists [], vs. split; [done|]. split; [by intros ? [= <-]|].
           split; [by intros y ?%elem_of_nil|done].
        -- right. exists (GInt a :: l1), l2. split; [done|].
           specialize (Hb a eq_refl). split; [intros ? [= <-]; lia|].
           split; [|done]. intros y [[= ->]|Hy]%elem_of_cons; [done|by apply H1].
      * destruct IH as [[[= ->] Hall]|(l1 & l2 & -> & Hb & H1 & H2)].
        -- left. split; [done|].
           intros y [[= ->]|Hy]%elem_of_cons; [done|by apply Hall].
        -- right. exists (GInt a :: l1), l2. split; [done|].
           specialize (Hb b eq_refl). split; [by intros ? [= <-]|].
           split; [|done]. intros y [[= ->]|Hy]%elem_of_cons; [lia|by apply H1].
    + destruct IH as [[[= ->] Hall]|(l1 & l2 & -> & Hb & H1 & H2)].
      * right. exists [], vs. split; [done|]. split; [done|].
        split; [by intros y ?%elem_of_nil|done].
      * right. exists (GInt a :: l1), l2. split; [done|]. split; [done|].
        specialize (Hb a eq_refl). split; [|done].
        intros y [[= ->]|Hy]%elem_of_cons; [done|by apply H1].
Qed.

Lemma nearest_fold_None t vs : ∀ acc,
  fold_left (nearest_step t) vs acc = None → ∀ y, GInt y ∉ vs.
Proof.
  induction vs as [|v vs IH]; intros acc Hfold y; cbn [fold_left] in Hfold.
  - apply not_elem_of_nil.
  - intros [Hy|Hy]%elem_of_cons; [|by eapply IH].
    subst v. cbn [nearest_step] in Hfold.
    assert (Hsome : ∀ us z, fold_left (nearest_step t) us (Some z) ≠ None).
    { clear. induction us as [|u us IHus]; intros z; cbn [fold_left]; [done|].
      destruct u; cbn [nearest_step]; try apply IHus.
      destruct (_ <? _); apply IHus. }
    destruct acc as [b|]; [destruct (_ <? _)|]; by eapply Hsome.
Qed.

(** In a list, the first of the nearest int entries is chosen. *)
Lemma nearest_in_list_first t vs x :
  nearest_in_list t vs = Some x → first_nearest t vs x.
Proof.
  intros [[[=] _]|(l1 & l2 & -> & _ & H1 & H2)]%nearest_fold.
  by exists l1, l2.
Qed.

(** In an ascending list of ints the first of two equally near entries is
    the smaller one. *)
Lemma first_nearest_ascending t (ws : list Z) x :
  StronglySorted Z.lt ws →
  first_nearest t (GInt <$> ws) x →
  ∀ y, y ∈ ws → Z.abs (t - x) = Z.abs (t - y) → x ≤ y.
Proof.
  intros Hsorted (l1 & l2 & Heq & H1 & H2) y Hy Htie.
  apply fmap_app_inv in Heq as (w1 & w2 & -> & Hw2 & ->).
  symmetry in Hw2. apply fmap_cons_inv in Hw2 as (x' & w2' & [= <-] & -> & ->).
  apply elem_of_app in Hy as [Hy|[->|Hy]%elem_of_cons]; [|lia|].
  - assert (Z.abs (t - x) < Z.abs (t - y)); [|lia].
    apply H1. by apply list_elem_of_fmap_2.
  - apply StronglySorted_app_1_r, StronglySorted_cons in Hsorted as [Hall _].
    rewrite Forall_forall in Hall. specialize (Hall _ Hy). lia.
Qed.

(** What gst_structure_fixate_field_nearest_int leaves in the field. *)
Lemma fixate_field_nearest_int_same s f t v :
  gst_structure_get_value s f = Some v →
  fixated_toward v t
    (gst_structure_get_value (gst_structure_fixate_field_nearest_int s f t) f).
Proof.
  unfold gst_structure_get_value, gst_structure_fixate_field_nearest_int.
  intros Hv. rewrite Hv.
  destruct v as [n|b|lo hi|vs|r]; cbn [fixated_toward]; try done.
  - cbn [st_fields gst_structure_set_value]. rewrite lookup_insert_eq.
    eexists. split; [done|]. apply clamp_to_range_nearest.
  - destruct (nearest_in_list t vs) as [x|] eqn:Hn.
    + left. exists x. cbn [st_fields gst_structure_set_value].
      rewrite lookup_insert_eq. split; [done|]. by apply nearest_in_list_first.
    + right. split; [|done]. by eapply nearest_fold_None.
Qed.

Lemma fixate_field_nearest_int_other s f t g :
  g ≠ f →
  st_fields (gst_structure_fixate_field_nearest_int s f t) !! g = st_fields s !! g.
Proof.
  intros Hne. unfold gst_structure_fixate_field_nearest_int.
  destruct (st_fields s !! f) as [[n|b|lo hi|vs|r]|]; try done.
  - cbn [st_fields gst_structure_set_value]. by rewrite lookup_insert_ne.
  - destruct (nearest_in_list t vs); [|done].
    cbn [st_fields gst_structure_set_value]. by rewrite lookup_insert_ne.
Qed.

Lemma fixate_int_if_present_same s f t v :
  st_fields s !! f = Some v →
  fixated_toward v t (st_fields (fixate_int_if_present s f t) !! f).
Proof.
  intros Hv. unfold fixate_int_if_present, gst_structure_has_field. rewrite Hv.
  by apply fixate_field_nearest_int_same.
Qed.

Lemma fixate_int_if_present_other s f t g :
  g ≠ f → st_fields (fixate_int_if_present s f t) !! g = st_fields s !! g.
Proof.
  intros Hne. unfold fixate_int_if_present.
  destruct (gst_structure_has_field s f); [|done].
  by apply fixate_field_nearest_int_other.
Qed.

(** One [if (gst_structure_get_int (ins, f, ...))] block leaves the other
    fields alone. *)
Lemma fixate_step_other (o : option Z) s f g :
  g ≠ f →
  st_fields match o with
            | Some t => fixate_int_if_present s f t
            | None => s
            end !! g = st_fields s !! g.
Proof. intros Hne. destruct o; [|done]. by apply fixate_int_if_present_other. Qed.

Lemma fixate_step_same (o : option Z) s f v :
  st_fields s !! f = Some v →
  match o with
  | Some t =>
      fixated_toward v t (st_fields (fixate_int_if_present s f t) !! f)
  | None => st_fields s !! f = Some v
  end.
Proof. intros Hv. destruct o; [|done]. by apply fixate_int_if_present_same. Qed.

(** The boolean scan keeps the target once it has met it. *)
Lemma boolean_fold_target b vs : ∀ acc,
  acc = Some b ∨ GBoolean b ∈ vs →
  fold_left (boolean_step b) vs acc = Some b.
Proof.
  induction vs as [|v vs IH]; intros acc; cbn [fold_left].
  - intros [->|?%elem_of_nil]; done.
  - intros [->|[<-|Hin]%elem_of_cons].
    + apply IH. left. destruct v; cbn [boolean_step]; try done.
      destruct (Bool.eqb_spec b0 b); by subst.
    + apply IH. left. cbn [boolean_step]. rewrite Bool.eqb_reflx.
      by destruct acc.
    + apply IH. by right.
Qed.

Lemma fixate_boolean_step_other (o : option bool) s g :
  g ≠ "signed" →
  st_fields match o with
            | Some signedness =>
                if gst_structure_has_field s "signed"
                then gst_structure_fixate_field_boolean s "signed" signedness
                else s
            | None => s
            end !! g = st_fields s !! g.
Proof.
  intros Hne. destruct o as [b|]; [|done].
  destruct (gst_structure_has_field s "signed"); [|done].
  unfold gst_structure_fixate_field_boolean.
  destruct (st_fields s !! "signed") as [[n|c|lo hi|vs|r]|]; try done.
  destruct (fold_left _ _ _); [|done].
  cbn [st_fields gst_structure_set_value]. by rewrite lookup_insert_ne.
Qed.

Lemma fixate_boolean_same s b vs :
  st_fields s !! "signed" = Some (GList vs) → GBoolean b ∈ vs →
  st_fields (if gst_structure_has_field s "signed"
             then gst_structure_fixate_field_boolean s "signed" b
             else s) !! "signed" = Some (GBoolean b).
Proof.
  intros Hs Hin. unfold gst_structure_has_field, gst_structure_fixate_field_boolean.
  rewrite Hs, boolean_fold_target by auto.
  cbn [st_fields gst_structure_set_value]. apply lookup_insert_eq.
Qed.

Lemma fixate_int_if_present_name s f t :
  st_name (fixate_int_if_present s f t) = st_name s.
Proof.
  unfold fixate_int_if_present, gst_structure_fixate_field_nearest_int.
  destruct (gst_structure_has_field s f); [|done].
  destruct (st_fields s !! f) as [[n|b|lo hi|vs|r]|]; try done.
  by destruct (nearest_in_list t vs).
Qed.

Lemma fixate_step_name (o : option Z) s f :
  st_name match o with
          | Some t => fixate_int_if_present s f t
          | None => s
          end = st_name s.
Proof. destruct o; [|done]. apply fixate_int_if_present_name. Qed.

Lemma fixate_boolean_step_name (o : option bool) s :
  st_name match o with
          | Some signedness =>
              if gst_structure_has_field s "signed"
              then gst_structure_fixate_field_boolean s "signed" signedness
              else s
          | None => s
          end = st_name s.
Proof.
  destruct o as [b|]; [|done].
  destruct (gst_structure_has_field s "signed"); [|done].
  unfold gst_structure_fixate_field_boolean.
  destruct (st_fields s !! "signed") as [[n|c|lo hi|vs|r]|]; try done.
  by destruct (fold_left _ _ _).
Qed.

(** C3, as the code has it: on fixed caps, each of channels, rate,
    endianness, width and depth of the flexible side's first structure is
    fixated toward the fixed side's value of that field: a range is clamped
    around it, a list gives up its int entry nearest to it, the first listed
    of several equally near ones.  A depth the fixed side does not have is
    fixated toward the fixed side's width.  The signed field goes to the fixed
    side's value where the list has it, and no other field changes. *)
Theorem fixate_caps_nearest width_uninit ins outs others :
  gst_caps_is_fixed [ins] = true →
  ∃ outs',
    gst_audio_convert_fixate_caps width_uninit [ins] (outs :: others)
      = outs' :: others ∧
    gst_structure_get_name outs' = gst_structure_get_name outs ∧
    (∀ f v, f ∈ int_fields → gst_structure_get_value outs f = Some v →
       match fixation_target width_uninit ins f with
       | Some t => fixated_toward v t (gst_structure_get_value outs' f)
       | None => gst_structure_get_value outs' f = Some v
       end) ∧
    (∀ b vs, gst_structure_get_boolean ins "signed" = Some b →
       gst_structure_get_value outs "signed" = Some (GList vs) →
       GBoolean b ∈ vs →
       gst_structure_get_value outs' "signed" = Some (GBoolean b)) ∧
    (∀ f, f ∉ int_fields → f ≠ "signed" →
       gst_structure_get_value outs' f = gst_structure_get_value outs f).
Proof.
  intros Hfix. unfold gst_audio_convert_fixate_caps. rewrite Hfix.
  cbn [negb]. cbv iota. unfold gst_structure_get_value, fixation_target.
  set (o1 := match gst_structure_get_int ins "channels" with
             | Some channels => fixate_int_if_present outs "channels" channels
             | None => outs
             end).
  set (o2 := match gst_structure_get_int ins "rate" with
             | Some rate => fixate_int_if_present o1 "rate" rate
             | None => o1
             end).
  set (o3 := match gst_structure_get_int ins "endianness" with
             | Some endianness => fixate_int_if_present o2 "endianness" endianness
             | None => o2
             end).
  set (o4 := match gst_structure_get_int ins "width" with
             | Some width => fixate_int_if_present o3 "width" width
             | None => o3
             end).
  set (target := default width_uninit (gst_structure_get_int ins "width")).
  set (o5 := fixate_int_if_present o4 "depth"
               (default target (gst_structure_get_int ins "depth"))).
  set (o6 := match gst_structure_get_boolean ins "signed" with
             | Some signedness =>
                 if gst_structure_has_field o5 "signed"
                 then gst_structure_fixate_field_boolean o5 "signed" signedness
                 else o5
             | None => o5
             end).
  exists o6. split.
  { unfold o6, o5, target, o4.
    destruct (gst_structure_get_int ins "width") as [w|];
      destruct (gst_structure_get_int ins "depth") as [d|]; reflexivity. }
  assert (H1 : ∀ g, g ≠ "channels" → st_fields o1 !! g = st_fields outs !! g)
    by (intros; by apply fixate_step_other).
  assert (H2 : ∀ g, g ≠ "rate" → st_fields o2 !! g = st_fields o1 !! g)
    by (intros; by apply fixate_step_other).
  assert (H3 : ∀ g, g ≠ "endianness" → st_fields o3 !! g = st_fields o2 !! g)
    by (intros; by apply fixate_step_other).
  assert (H4 : ∀ g, g ≠ "width" → st_fields o4 !! g = st_fields o3 !! g)
    by (intros; by apply fixate_step_other).
  assert (H5 : ∀ g, g ≠ "depth" → st_fields o5 !! g = st_fields o4 !! g)
    by (intros; by apply fixate_int_if_present_other).
  assert (H6 : ∀ g, g ≠ "signed" → st_fields o6 !! g = st_fields o5 !! g)
    by (intros; by apply fixate_boolean_step_other).
  split.
  { unfold gst_structure_get_name, o6.
    rewrite fixate_boolean_step_name. unfold o5.
    rewrite fixate_int_if_present_name. unfold o4, o3, o2, o1.
    by rewrite !fixate_step_name. }
  split; [|split].
  - intros f v Hin Hv. unfold int_fields in Hin.
    repeat (apply elem_of_cons in Hin as [-> | Hin]); [..|by apply elem_of_nil in Hin].
    + rewrite H6, H5, H4, H3, H2 by done. cbn [String.eqb Ascii.eqb Bool.eqb].
      pose proof (fixate_step_same (gst_structure_get_int ins "channels") outs _ v Hv).
      by destruct (gst_structure_get_int ins "channels").
    + rewrite H6, H5, H4, H3 by done. cbn [String.eqb Ascii.eqb Bool.eqb].
      rewrite <- H1 in Hv by done.
      pose proof (fixate_step_same (gst_structure_get_int ins "rate") o1 _ v Hv).
      by destruct (gst_structure_get_int ins "rate").
    + rewrite H6, H5, H4 by done. cbn [String.eqb Ascii.eqb Bool.eqb].
      rewrite <- H1, <- H2 in Hv by done.
      pose proof (fixate_step_same (gst_structure_get_int ins "endianness") o2 _ v Hv).
      by destruct (gst_structure_get_int ins "endianness").
    + rewrite H6, H5 by done. cbn [String.eqb Ascii.eqb Bool.eqb].
      rewrite <- H1, <- H2, <- H3 in Hv by done.
      pose proof (fixate_step_same (gst_structure_get_int ins "width") o3 _ v Hv).
      by destruct (gst_structure_get_int ins "width").
    + rewrite H6 by done. cbn [String.eqb Ascii.eqb Bool.eqb].
      rewrite <- H1, <- H2, <- H3, <- H4 in Hv by done.
      unfold o5. destruct (gst_structure_get_int ins "depth") as [d|];
        by apply fixate_int_if_present_same.
  - intros b vs Hb Hs Hin. unfold o6. rewrite Hb.
    apply (fixate_boolean_same _ _ vs); [|done].
    by rewrite H5, H4, H3, H2, H1.
  - intros f Hf Hns. unfold int_fields in Hf.
    rewrite H6, H5, H4, H3, H2, H1; [done|intros ->; apply Hf; set_unfold; auto 10..|done].
Qed.

End FixationFacts.

(** C3 at float 32 bit stereo against an integer template of 8 or 16 bit. *)
Lemma fixate_caps_nearest_witness :
  gst_caps_is_fixed [float32_stereo] = true ∧
  ∃ outs',
    gst_audio_convert_fixate_caps 0 [float32_stereo] [int_8_or_16] = [outs'] ∧
    gst_structure_get_name outs' = gst_structure_get_name int_8_or_16 ∧
    (∀ f v, f ∈ int_fields → gst_structure_get_value int_8_or_16 f = Some v →
       match fixation_target 0 float32_stereo f with
       | Some t => fixated_toward v t (gst_structure_get_value outs' f)
       | None => gst_structure_get_value outs' f = Some v
       end) ∧
    (∀ b vs, gst_structure_get_boolean float32_stereo "signed" = Some b →
       gst_structure_get_value int_8_or_16 "signed" = Some (GList vs) →
       GBoolean b ∈ vs →
       gst_structure_get_value outs' "signed" = Some (GBoolean b)) ∧
    (∀ f, f ∉ int_fields → f ≠ "signed" →
       gst_structure_get_value outs' f = gst_structure_get_value int_8_or_16 f).
Proof.
  split; [reflexivity|].
  apply (fixate_caps_nearest 0 float32_stereo int_8_or_16 []).
  reflexivity.
Defined.

(** C3 as stated fails: float 32 bit has no depth; against an integer
    template of width 8 or 16 and depth 1 to 32 the width is resolved to 16,
    yet the depth goes to 32, the value nearest to the fixed side's width, and
    not to 16, the value nearest to the resolved width. *)
Lemma fixate_caps_depth_not_toward_resolved_width :
  gst_caps_is_fixed [float32_stereo] = true ∧
  gst_audio_convert_fixate_caps 0 [float32_stereo] [int_8_or_16]
    = [int_8_or_16_fixated] ∧
  ¬ fixation_as_specified float32_stereo int_8_or_16 int_8_or_16_fixated.
Proof.
  split; [reflexivity|]. split; [vm_compute; reflexivity|].
  intros [_ Hdepth].
  assert (Hnone : gst_structure_get_int float32_stereo "depth" = None)
    by (vm_compute; reflexivity).
  assert (Hrange : gst_structure_get_value int_8_or_16 "depth" = Some (GIntRange 1 32))
    by (vm_compute; reflexivity).
  destruct (Hdepth Hnone _ Hrange eq_refl) as (w & x & Hw & Hx & _ & Hall).
  vm_compute in Hw, Hx. injection Hw as <-. injection Hx as <-.
  destruct (Hall 16 eq_refl) as [Hlt|[Heq _]]; [lia|lia].
Qed.

(** * The per-buffer transform: gst_audio_convert_transform *)

Section TransformFacts.

Variable convert :
  AudioConvertCtx → list Byte.byte → list Byte.byte → Z → bool →
  bool * list Byte.byte.

Local Abbreviation transform := (gst_audio_convert_transform convert).

(** The arithmetic of the function when nothing overflows. *)
Lemma in_range_sizes ctx inbuf outbuf :
  transform_in_range ctx inbuf outbuf →
  0 ≤ sample_count ctx inbuf ≤ G_MAXINT ∧
  0 ≤ input_bytes ctx inbuf ≤ buf_size inbuf ∧
  0 ≤ output_bytes ctx inbuf ≤ G_MAXINT.
Proof.
  intros (_ & [Hu Hu'] & Ho & [Hs Hs'] & _ & Hout).
  unfold input_bytes, output_bytes, sample_count.
  pose proof (Z.mul_div_le (buf_size inbuf) (unit_size (ctx_in ctx)) Hu).
  assert (0 ≤ buf_size inbuf / unit_size (ctx_in ctx)) by (apply Z.div_pos; lia).
  assert (buf_size inbuf / unit_size (ctx_in ctx) ≤ buf_size inbuf)
    by (apply Z.div_le_upper_bound; nia).
  repeat split; nia.
Qed.

(** The function, with the conversions between C types resolved. *)
Lemma transform_in_range_eq ctx inbuf outbuf :
  transform_in_range ctx inbuf outbuf →
  transform ctx inbuf outbuf =
  let samples := sample_count ctx inbuf in
  let insize := input_bytes ctx inbuf in
  let outsize := output_bytes ctx inbuf in
  if (insize =? 0) || (outsize =? 0)
  then Some (GST_FLOW_OK, outbuf, [EvGetSizes samples])
  else if buf_size outbuf <? outsize
  then Some (GST_FLOW_ERROR, outbuf, [EvGetSizes samples; EvWrongSize])
  else
    let '(res, dst) :=
      convert ctx (buf_data inbuf) (buf_data outbuf) samples (buf_writable inbuf) in
    if negb res
    then Some (GST_FLOW_ERROR,
               mkBuffer dst (buf_size outbuf) (buf_writable outbuf),
               [EvGetSizes samples; EvConvert samples (buf_writable inbuf);
                EvConvertError])
    else Some (GST_FLOW_OK,
               mkBuffer dst outsize (buf_writable outbuf),
               [EvGetSizes samples; EvConvert samples (buf_writable inbuf)]).
Proof.
  intros Hrange.
  destruct (in_range_sizes _ _ _ Hrange) as (Hsamples & Hin & Hout).
  destruct Hrange as (Hprep & [Hu Hu'] & Ho & [Hs Hs'] & _ & _).
  unfold gst_audio_convert_transform, audio_convert_get_sizes.
  unfold input_bytes, output_bytes, sample_count, G_MAXINT, G_MININT in *.
  rewrite Hprep.
  rewrite (to_guint_id (unit_size (ctx_in ctx))) by (unfold two32; lia).
  destruct (Z.eqb_spec (unit_size (ctx_in ctx)) 0) as [?|_]; [lia|].
  rewrite (to_gint_id (buf_size inbuf / unit_size (ctx_in ctx)))
    by (unfold G_MININT, G_MAXINT; lia).
  rewrite !to_gint_id by (unfold G_MININT, G_MAXINT; lia).
  rewrite !to_guint_id by (unfold two32; lia).
  cbv zeta.
  destruct (_ || _); [done|].
  destruct (Z.ltb_spec (buf_size inbuf)
              (buf_size inbuf / unit_size (ctx_in ctx) * unit_size (ctx_in ctx)));
    [lia|].
  destruct (_ <? _); [done|].
  by destruct (convert _ _ _ _ _) as [[] dst].
Qed.

Lemma not_called_sizes_only samples (rest : list Event) :
  (∀ e, e ∈ rest → e = EvWrongSize ∨ e = EvError) →
  ¬ convert_called (EvGetSizes samples :: rest).
Proof.
  intros Hrest (n & w & [Hin|Hin]%elem_of_cons); [done|].
  by destruct (Hrest _ Hin).
Qed.


(** C7, as the code has it: with no whole frame in the input the
    transform returns GST_FLOW_OK without calling the conversion and leaves
    the output buffer, its size included, as it was supplied; after a
    successful conversion the size of the output buffer is the output byte
    count. *)
Theorem transform_zero_samples_and_size ctx inbuf outbuf :
  transform_in_range ctx inbuf outbuf →
  ∃ flow outbuf' events,
    transform ctx inbuf outbuf = Some (flow, outbuf', events) ∧
    (sample_count ctx inbuf = 0 →
       flow = GST_FLOW_OK ∧ outbuf' = outbuf ∧ ¬ convert_called events) ∧
    (flow = GST_FLOW_OK → convert_called events →
       buf_size outbuf' = output_bytes ctx inbuf).
Proof.
  intros Hrange. rewrite transform_in_range_eq by done. cbv zeta.
  destruct ((input_bytes ctx inbuf =? 0) || (output_bytes ctx inbuf =? 0)) eqn:Hzero.
  - eexists _, _, _. split; [done|].
    assert (Hnot : ¬ convert_called [EvGetSizes (sample_count ctx inbuf)]).
    { apply not_called_sizes_only. by intros e ?%elem_of_nil. }
    split; [done|]. by intros _ ?.
  - assert (Hsamples : sample_count ctx inbuf ≠ 0).
    { apply orb_false_iff in Hzero as [Hz _]. apply Z.eqb_neq in Hz.
      unfold input_bytes in Hz. lia. }
    destruct (buf_size outbuf <? output_bytes ctx inbuf).
    + eexists _, _, _. split; [done|]. split; [done|]. done.
    + destruct (convert _ _ _ _ _) as [[] dst]; cbn [negb];
        eexists _, _, _; (split; [done|]); split; done.
Qed.


End TransformFacts.


(** C7 at an empty input buffer and an output buffer of no bytes. *)
Lemma transform_zero_samples_and_size_witness :
  transform_in_range ctx_int16_to_float32 buffer_0 buffer_0 ∧
  ∃ flow outbuf' events,
    gst_audio_convert_transform convert_zeroes ctx_int16_to_float32
      buffer_0 buffer_0 = Some (flow, outbuf', events) ∧
    (sample_count ctx_int16_to_float32 buffer_0 = 0 →
       flow = GST_FLOW_OK ∧ outbuf' = buffer_0 ∧ ¬ convert_called events) ∧
    (flow = GST_FLOW_OK → convert_called events →
       buf_size outbuf' = output_bytes ctx_int16_to_float32 buffer_0).
Proof.
  split; [repeat split; vm_compute; congruence|].
  apply (transform_zero_samples_and_size convert_zeroes ctx_int16_to_float32
           buffer_0 buffer_0).
  repeat split; vm_compute; congruence.
Defined.

(** C7 as stated fails: an empty input buffer with a 16 byte output
    buffer returns GST_FLOW_OK and the output buffer still has 16 bytes. *)
Lemma transform_zero_samples_output_not_empty :
  transform_in_range ctx_int16_to_float32 buffer_0 buffer_16 ∧
  gst_audio_convert_transform convert_zeroes ctx_int16_to_float32
    buffer_0 buffer_16 = Some (GST_FLOW_OK, buffer_16, [EvGetSizes 0]) ∧
  ¬ zero_samples_give_zero_length convert_zeroes ctx_int16_to_float32
      buffer_0 buffer_16.
Proof.
  split; [repeat split; vm_compute; congruence|].
  split; [reflexivity|].
  intros Hclaim. destruct (Hclaim eq_refl) as (outbuf' & events & Heq & Hsize).
  vm_compute in Heq. injection Heq as <- _. discriminate Hsize.
Qed.


(** * Further properties of the helpers *)

(** Membership in a list that is written out. *)
Ltac in_list := repeat first [apply list_elem_of_here | apply list_elem_of_further].

Section HelperFacts.

Variable G_BYTE_ORDER : Z.

Local Abbreviation lossless := (make_lossless_changes G_BYTE_ORDER).

(** Whatever the width loop lists is [width] plus a multiple of 8, and not
    above [max]. *)
Lemma widths_loop_sound max : ∀ fuel width v,
  v ∈ widths_loop fuel width max →
  ∃ k, 0 ≤ k ∧ v = GInt (width + 8 * k) ∧ width + 8 * k ≤ max.
Proof.
  induction fuel as [|fuel IH]; intros width v; cbn [widths_loop].
  - by intros ?%elem_of_nil.
  - destruct (Z.leb_spec width max); [|by intros ?%elem_of_nil].
    intros [->|Hin]%elem_of_cons.
    + exists 0. rewrite Z.mul_0_r, Z.add_0_r. done.
    + destruct (IH _ _ Hin) as (k & Hk & -> & Hle).
      exists (k + 1). split; [lia|]. split; [f_equal; lia|lia].
Qed.


(** X2: applying make_lossless_changes a second time changes nothing. *)
Theorem make_lossless_changes_idempotent s isfloat :
  make_lossless_changes G_BYTE_ORDER
    (make_lossless_changes G_BYTE_ORDER s isfloat) isfloat
  = make_lossless_changes G_BYTE_ORDER s isfloat.
Proof.
  destruct s as [name fields].
  unfold make_lossless_changes, set_structure_widths_32_and_64,
    gst_structure_set_value, gst_structure_remove_field.
  destruct isfloat; cbn [st_name st_fields]; f_equal; apply map_eq; intros f.
  - destruct (decide (f = "endianness")) as [->|?]; [by rewrite !lookup_insert_eq|].
    rewrite !(lookup_insert_ne _ "endianness") by done.
    destruct (decide (f = "width")) as [->|?]; [by rewrite !lookup_insert_eq|].
    rewrite !(lookup_insert_ne _ "width") by done.
    destruct (decide (f = "signed")) as [->|?]; [by rewrite !lookup_delete_eq|].
    rewrite !(lookup_delete_ne _ "signed") by done.
    destruct (decide (f = "depth")) as [->|?]; [by rewrite !lookup_delete_eq|].
    rewrite !(lookup_delete_ne _ "depth") by done.
    rewrite !lookup_insert_ne by done. by rewrite !lookup_delete_ne by done.
  - destruct (decide (f = "signed")) as [->|?]; [by rewrite !lookup_insert_eq|].
    rewrite !(lookup_insert_ne _ "signed") by done.
    destruct (decide (f = "endianness")) as [->|?]; [by rewrite !lookup_insert_eq|].
    by rewrite !lookup_insert_ne by done.
Qed.

End HelperFacts.

(** * Further properties of the negotiation *)

Section NegotiationInvariants.

Variable G_BYTE_ORDER : Z.

Local Abbreviation transform_caps := (gst_audio_convert_transform_caps G_BYTE_ORDER).
Local Abbreviation lossless := (make_lossless_changes G_BYTE_ORDER).
Local Abbreviation other := (other_format G_BYTE_ORDER).

Lemma set_structure_widths_as_set s lo hi :
  set_structure_widths s lo hi = gst_structure_set_value s "width" (GInt lo) ∨
  set_structure_widths s lo hi
  = gst_structure_set_value s "width"
      (GList (widths_loop (Z.to_nat (hi - lo + 1)) lo hi)) ∧ lo ≠ hi.
Proof.
  unfold set_structure_widths. destruct (Z.eqb_spec lo hi); [by left|by right].
Qed.

(** An invariant principle: a property that holds of the first template,
    survives the values the function writes to width, depth and channels and
    survives append_with_other_format holds of every template. *)
Section Principle.

Variable st : GstStructure.
Variable Inv : GstStructure → Prop.
Variable Ok : GValue → Prop.

Hypothesis Inv_set : ∀ s f v,
  f = "width" ∨ f = "depth" ∨ f = "channels" → Ok v → Inv s →
  Inv (gst_structure_set_value s f v).
Hypothesis Ok_int : ∀ n, Ok (GInt n).
Hypothesis Ok_range : ∀ lo hi, Ok (GIntRange lo hi).
Hypothesis Ok_widths : ∀ lo,
  lo = 8 ∨ lo = 16 ∨ gst_structure_get_int st "width" = Some lo →
  lo ≠ 32 →
  Ok (GList (widths_loop (Z.to_nat (32 - lo + 1)) lo 32)).
Hypothesis Inv_other : ∀ s b, Inv s → Inv (other s b).
Hypothesis Inv_first : Inv (stage_lossless G_BYTE_ORDER st).

Lemma Inv_widths s lo :
  lo = 8 ∨ lo = 16 ∨ gst_structure_get_int st "width" = Some lo →
  Inv s → Inv (set_structure_widths s lo 32).
Proof.
  intros Hlo Hs. destruct (set_structure_widths_as_set s lo 32) as [->|[-> Hne]].
  - apply Inv_set; auto.
  - apply Inv_set; auto.
Qed.

Lemma Inv_stage_increase : Inv (stage_increase G_BYTE_ORDER st).
Proof.
  unfold stage_increase.
  assert (Hchan : ∀ s, Inv s →
    Inv match gst_structure_get_int st "channels" with
        | Some channels =>
            if channels =? 8 then gst_structure_set_value s "channels" (GInt 8)
            else gst_structure_set_value s "channels" (GIntRange channels 8)
        | None => s
        end).
  { intros s Hs. destruct (gst_structure_get_int st "channels") as [c|]; [|done].
    destruct (c =? 8); apply Inv_set; auto. }
  apply Hchan. destruct (negb (isfloat_structure st)); [|done].
  assert (Hw : Inv match gst_structure_get_int st "width" with
                   | Some width =>
                       set_structure_widths (stage_lossless G_BYTE_ORDER st) width 32
                   | None => stage_lossless G_BYTE_ORDER st
                   end).
  { assert (Hcase : ∀ o : option Z,
      (∀ w, o = Some w → Inv (set_structure_widths (stage_lossless G_BYTE_ORDER st) w 32)) →
      Inv match o with
          | Some width =>
              set_structure_widths (stage_lossless G_BYTE_ORDER st) width 32
          | None => stage_lossless G_BYTE_ORDER st
          end).
    { intros [w|] Ho; [by apply Ho|done]. }
    apply Hcase. intros w Hgw. apply Inv_widths; auto. }
  destruct (gst_structure_get_int st "depth") as [d|]; [|done].
  destruct (d =? 32); apply Inv_set; auto.
Qed.

Lemma Inv_stage_reduce_depth : Inv (stage_reduce_depth G_BYTE_ORDER st).
Proof.
  unfold stage_reduce_depth. apply Inv_set; auto.
  apply Inv_widths; auto. apply Inv_stage_increase.
Qed.

Lemma Inv_stage_channels : Inv (stage_channels G_BYTE_ORDER st).
Proof.
  unfold stage_channels, stage_after_reduce. apply Inv_set; auto.
  destruct (_ && _); [apply Inv_stage_reduce_depth|apply Inv_stage_increase].
Qed.

Lemma Inv_stage_any : Inv (stage_any G_BYTE_ORDER st).
Proof.
  unfold stage_any. apply Inv_set; auto.
  apply Inv_widths; auto. apply Inv_stage_channels.
Qed.

Lemma transform_caps_all ret t :
  transform_caps [st] = Some ret → t ∈ ret → Inv t.
Proof.
  rewrite transform_caps_stages. intros Hret Hin.
  assert (Hlist : ret =
    [stage_lossless G_BYTE_ORDER st;
     other (stage_lossless G_BYTE_ORDER st) (isfloat_structure st);
     stage_increase G_BYTE_ORDER st;
     other (stage_increase G_BYTE_ORDER st) (isfloat_structure st)]
    ++ depth_reduction_templates G_BYTE_ORDER st
    ++ [stage_channels G_BYTE_ORDER st;
        other (stage_channels G_BYTE_ORDER st) (isfloat_structure st);
        if isfloat_structure st
        then other (stage_any G_BYTE_ORDER st) true
        else stage_any G_BYTE_ORDER st]) by (by injection Hret as <-).
  rewrite Hlist in Hin. clear Hret Hlist.
  rewrite !elem_of_app in Hin. destruct Hin as [Hin|[Hin|Hin]].
  - repeat (apply elem_of_cons in Hin as [-> | Hin]);
      [..|by apply elem_of_nil in Hin];
      auto using Inv_stage_increase.
  - unfold depth_reduction_templates in Hin.
    destruct (depth_reduction_guard st); [|by apply elem_of_nil in Hin].
    apply list_elem_of_singleton in Hin as ->.
    destruct (isfloat_structure st); auto using Inv_stage_reduce_depth.
  - repeat (apply elem_of_cons in Hin as [-> | Hin]);
      [..|by apply elem_of_nil in Hin];
      auto using Inv_stage_channels.
    destruct (isfloat_structure st); auto using Inv_stage_any.
Qed.

End Principle.

Lemma other_format_lookup s b f :
  f ≠ "width" → f ≠ "depth" → f ≠ "endianness" → f ≠ "signed" →
  st_fields (other s b) !! f = st_fields s !! f.
Proof.
  intros. unfold other_format.
  destruct b; by rewrite make_lossless_changes_other by done.
Qed.

Lemma transform_caps_Some st : ∃ ret, transform_caps [st] = Some ret.
Proof. rewrite transform_caps_stages. eauto. Qed.

(** X3: the rate is never touched: every template carries the rate
    field exactly as the input has it (absent when the input has none). *)
Theorem transform_caps_keeps_rate st :
  ∃ ret, transform_caps [st] = Some ret ∧
    ∀ t, t ∈ ret →
      gst_structure_get_value t "rate" = gst_structure_get_value st "rate".
Proof.
  destruct (transform_caps_Some st) as [ret Hret]. exists ret. split; [done|].
  intros t Hin. unfold gst_structure_get_value.
  apply (transform_caps_all st
           (λ t, st_fields t !! "rate" = st_fields st !! "rate") (λ _, True))
    with ret; try done.
  - intros s f v Hf _ Hs. cbn [st_fields gst_structure_set_value].
    rewrite lookup_insert_ne; [done|]. by destruct Hf as [->|[->| ->]].
  - intros s b Hs. by rewrite other_format_lookup.
  - apply stage_lossless_passes. by right.
Qed.

(** X4: the templates are built from the six fields the function uses:
    no template has any other field, whatever else the input carries. *)
Theorem transform_caps_only_used_fields st :
  ∃ ret, transform_caps [st] = Some ret ∧
    ∀ t f, t ∈ ret → f ∉ fields_used → gst_structure_get_value t f = None.
Proof.
  destruct (transform_caps_Some st) as [ret Hret]. exists ret. split; [done|].
  intros t f Hin Hf. unfold gst_structure_get_value.
  assert (Hne : f ≠ "width" ∧ f ≠ "depth" ∧ f ≠ "rate" ∧ f ≠ "channels" ∧
                f ≠ "endianness" ∧ f ≠ "signed").
  { unfold fields_used in Hf. repeat split; intros ->; apply Hf; in_list. }
  destruct Hne as (? & ? & ? & ? & ? & ?).
  apply (transform_caps_all st (λ t, st_fields t !! f = None) (λ _, True))
    with ret; try done.
  - intros s g v Hg _ Hs. cbn [st_fields gst_structure_set_value].
    rewrite lookup_insert_ne; [done|]. by destruct Hg as [->|[->| ->]].
  - intros s b Hs. by rewrite other_format_lookup.
  - unfold stage_lossless. rewrite make_lossless_changes_other by done.
    destruct (st_fields (stage_copy st) !! f) as [v|] eqn:Hv; [|done].
    by destruct (stage_copy_lookup_Some _ _ _ Hv) as [? _].
Qed.

Lemma copy_fields_agree st st' fs : ∀ s,
  (∀ f, f ∈ fs → gst_structure_get_value st f = gst_structure_get_value st' f) →
  fold_left (copy_field st) fs s = fold_left (copy_field st') fs s.
Proof.
  induction fs as [|f fs IH]; intros s Hagree; [done|]. cbn [fold_left].
  unfold copy_field at 2 4. rewrite (Hagree f) by left.
  apply IH. intros g Hg. apply Hagree. by right.
Qed.

(** X5: fields other than the six used ones have no influence: two
    inputs with the same name that agree on the used fields get the same
    templates. *)
Theorem transform_caps_ignores_other_fields st st' :
  same_used_fields st st' →
  transform_caps [st] = transform_caps [st'].
Proof.
  intros [Hname Hfields].
  assert (Hint : ∀ f, f ∈ fields_used →
            gst_structure_get_int st f = gst_structure_get_int st' f).
  { intros f Hf. specialize (Hfields f Hf).
    unfold gst_structure_get_int, gst_structure_get_value in *. by rewrite Hfields. }
  unfold gst_audio_convert_transform_caps.
  rewrite Hname, (copy_fields_agree st st') by done.
  rewrite !(Hint "width"), !(Hint "depth"), !(Hint "channels")
    by (unfold fields_used; in_list).
  done.
Qed.

(** X6: every template that is not audio/x-raw-float offers both
    endiannesses and both signedness values. *)
Theorem transform_caps_int_layouts st :
  ∃ ret, transform_caps [st] = Some ret ∧
    ∀ t, t ∈ ret → gst_structure_get_name t ≠ raw_float_name →
      offers_all_layouts t.
Proof.
  destruct (transform_caps_Some st) as [ret Hret]. exists ret. split; [done|].
  intros t Hin.
  apply (transform_caps_all st
           (λ t, gst_structure_get_name t ≠ raw_float_name → offers_all_layouts t)
           (λ _, True)) with ret; try done.
  - intros s f v Hf _ Hs Hname. destruct (Hs Hname) as [He Hsg].
    unfold offers_all_layouts, gst_structure_get_value in *.
    cbn [st_fields gst_structure_set_value].
    rewrite !lookup_insert_ne by (by destruct Hf as [->|[->| ->]]). done.
  - intros s [] Hs Hname.
    + apply (offers_all_layouts_lossless G_BYTE_ORDER).
    + by destruct Hname.
  - intros Hname. unfold stage_lossless.
    destruct (isfloat_structure st) eqn:Hfl.
    + destruct Hname. unfold gst_structure_get_name.
      rewrite stage_lossless_name. by apply String.eqb_eq.
    + apply offers_all_layouts_lossless.
Qed.

Lemma not_below_int n m : n ≤ m → not_below n (GInt m).
Proof.
  intros Hle k. cbn [has_int]. rewrite Z.eqb_eq. lia.
Qed.

Lemma not_below_range n lo hi : n ≤ lo → not_below n (GIntRange lo hi).
Proof. intros Hle k. rewrite has_int_range. lia. Qed.

Lemma not_below_widths n max fuel :
  not_below n (GList (widths_loop fuel n max)).
Proof.
  intros k. cbn [has_int]. rewrite existsb_exists.
  intros (v & Hv%list_elem_of_In & Hk).
  apply widths_loop_sound in Hv as (j & Hj & -> & _).
  cbn [has_int] in Hk. apply Z.eqb_eq in Hk. lia.
Qed.

Lemma stage_lossless_int_keeps st f :
  isfloat_structure st = false → f = "width" ∨ f = "channels" →
  st_fields (stage_lossless G_BYTE_ORDER st) !! f = st_fields st !! f.
Proof.
  intros Hfl Hf. unfold stage_lossless. rewrite Hfl.
  rewrite make_lossless_changes_int_width by (by destruct Hf as [-> | ->]).
  apply stage_copy_lookup; destruct Hf as [-> | ->];
    (done || (unfold fields_used; in_list)).
Qed.

(** The channels of the templates of the second step. *)
Lemma stage_increase_channels st c :
  gst_structure_get_int st "channels" = Some c →
  st_fields (stage_increase G_BYTE_ORDER st) !! "channels"
  = Some (if c =? 8 then GInt 8 else GIntRange c 8).
Proof.
  intros Hc. unfold stage_increase. rewrite Hc.
  destruct (c =? 8); cbn [st_fields gst_structure_set_value];
    apply lookup_insert_eq.
Qed.

Lemma stage_increase_int_width st w :
  isfloat_structure st = false →
  gst_structure_get_int st "width" = Some w →
  st_fields (stage_increase G_BYTE_ORDER st) !! "width"
  = st_fields (set_structure_widths (stage_lossless G_BYTE_ORDER st) w 32) !! "width".
Proof.
  intros Hfl Hw. unfold stage_increase. rewrite Hfl, Hw. cbn [negb].
  destruct (gst_structure_get_int st "channels") as [c|];
    [destruct (c =? 8)|];
    (destruct (gst_structure_get_int st "depth") as [d|];
     [destruct (d =? 32)|]);
    cbn [st_fields gst_structure_set_value]; by rewrite ?lookup_insert_ne by done.
Qed.

Lemma stage_increase_int_depth st d :
  isfloat_structure st = false →
  gst_structure_get_int st "depth" = Some d →
  st_fields (stage_increase G_BYTE_ORDER st) !! "depth"
  = Some (if d =? 32 then GInt 32 else GIntRange d 32).
Proof.
  intros Hfl Hd. unfold stage_increase. rewrite Hfl, Hd. cbn [negb].
  destruct (gst_structure_get_int st "channels") as [c|];
    [destruct (c =? 8)|];
    destruct (d =? 32);
    cbn [st_fields gst_structure_set_value];
    rewrite ?(lookup_insert_ne _ "channels") by done; apply lookup_insert_eq.
Qed.

Lemma get_int_value s f n :
  gst_structure_get_int s f = Some n → st_fields s !! f = Some (GInt n).
Proof.
  unfold gst_structure_get_int.
  destruct (st_fields s !! f) as [[]|]; try done. by intros [= ->].
Qed.

(** X7: the first four templates reduce nothing.  None of them offers
    fewer channels than the input has, and for an input that is not FLOAT the
    first and the third offer no width below the input's width and no depth
    below the input's depth. *)
Theorem transform_caps_first_steps_never_reduce st :
  ∃ t0 t1 t2 t3 rest,
    transform_caps [st] = Some (t0 :: t1 :: t2 :: t3 :: rest) ∧
    (∀ t c v, t ∈ [t0; t1; t2; t3] →
       gst_structure_get_int st "channels" = Some c →
       gst_structure_get_value t "channels" = Some v → not_below c v) ∧
    (isfloat_structure st = false →
     ∀ t, t ∈ [t0; t2] →
       (∀ w v, gst_structure_get_int st "width" = Some w →
          gst_structure_get_value t "width" = Some v → not_below w v) ∧
       (∀ d v, gst_structure_get_int st "depth" = Some d →
          gst_structure_get_value t "depth" = Some v → not_below d v)).
Proof.
  eexists _, _, _, _, _. split; [apply transform_caps_stages|].
  unfold gst_structure_get_value. split.
  - intros t c v Hin Hc.
    assert (H0 : st_fields (stage_lossless G_BYTE_ORDER st) !! "channels"
                 = Some (GInt c)).
    { rewrite stage_lossless_passes by auto. by apply get_int_value. }
    pose proof (stage_increase_channels st c Hc) as H2.
    assert (Hbelow : not_below c (if c =? 8 then GInt 8 else GIntRange c 8)).
    { destruct (Z.eqb_spec c 8) as [->|?];
        [by apply not_below_int|by apply not_below_range]. }
    repeat (apply elem_of_cons in Hin as [-> | Hin]);
      [..|by apply elem_of_nil in Hin];
      rewrite ?other_format_lookup by done;
      rewrite ?H0, ?H2; intros [= <-]; (done || by apply not_below_int).
  - intros Hfl t Hin.
    repeat (apply elem_of_cons in Hin as [-> | Hin]);
      [..|by apply elem_of_nil in Hin]; split.
    + intros w v Hw. rewrite stage_lossless_int_keeps by auto.
      rewrite (get_int_value _ _ _ Hw). intros [= <-]. by apply not_below_int.
    + intros d v Hd. unfold stage_lossless. rewrite Hfl.
      rewrite make_lossless_changes_int_width by done.
      rewrite (stage_copy_depth st (GInt d)) by (by apply get_int_value).
      intros [= <-]. by apply not_below_int.
    + intros w v Hw. rewrite (stage_increase_int_width st w) by done.
      destruct (set_structure_widths_as_set (stage_lossless G_BYTE_ORDER st) w 32)
        as [->|[-> _]]; cbn [st_fields gst_structure_set_value];
        rewrite lookup_insert_eq; intros [= <-].
      * by apply not_below_int.
      * apply not_below_widths.
    + intros d v Hd. rewrite (stage_increase_int_depth st d) by done.
      intros [= <-]. destruct (Z.eqb_spec d 32) as [->|?];
        [by apply not_below_int|by apply not_below_range].
Qed.

(** X19: caps that do not consist of exactly one structure get no
    templates at all (NULL); one structure gets eight templates when its width
    is absent or above 16 and seven otherwise. *)
Theorem transform_caps_length caps :
  match caps with
  | [st] =>
      ∃ ret, transform_caps caps = Some ret ∧
        length ret = if depth_reduction_guard st then 8%nat else 7%nat
  | _ => transform_caps caps = None
  end.
Proof.
  destruct caps as [|st [|st' rest]]; [done| |done].
  eexists. split; [apply transform_caps_stages|].
  unfold depth_reduction_templates. by destruct (depth_reduction_guard st).
Qed.

End NegotiationInvariants.

(** * Further properties of parsing and of set_caps *)

Section ParseInvariants.

Variable G_BYTE_ORDER : Z.
Variable positions : GstStructure → option (list GstAudioChannelPosition).
Variable prepare :
  AudioConvertCtx → AudioConvertFmt → AudioConvertFmt → bool * AudioConvertCtx.

Local Abbreviation parse_caps := (gst_audio_convert_parse_caps G_BYTE_ORDER positions).
Local Abbreviation get_unit_size := (gst_audio_convert_get_unit_size G_BYTE_ORDER positions).
Local Abbreviation set_caps := (gst_audio_convert_set_caps G_BYTE_ORDER positions prepare).

Lemma caps_is_fixed_single caps :
  gst_caps_is_fixed caps = true → ∃ st, caps = [st].
Proof. destruct caps as [|st [|]]; try done. eauto. Qed.

(** A successful parse, spelled out. *)
Lemma parse_caps_Some_inv caps fmt0 fmt :
  parse_caps caps fmt0 = Some fmt →
  ∃ st, caps = [st] ∧
    gst_structure_get_int st "channels" = Some (channels fmt) ∧
    positions st = pos fmt ∧
    gst_structure_get_int st "width" = Some (width fmt) ∧
    gst_structure_get_int st "rate" = Some (rate fmt) ∧
    is_int fmt = is_integer_format st ∧
    (if is_int fmt
     then gst_structure_get_boolean st "signed" = Some (sign fmt) ∧
          gst_structure_get_int st "depth" = Some (depth fmt) ∧
          depth fmt ≤ width fmt ∧
          (if width fmt =? 8 then endianness fmt = G_BYTE_ORDER
           else gst_structure_get_int st "endianness" = Some (endianness fmt))
     else sign fmt = sign fmt0 ∧ depth fmt = depth fmt0 ∧
          endianness fmt = G_BYTE_ORDER).
Proof.
  unfold gst_audio_convert_parse_caps. destruct caps as [|st rest]; [done|].
  destruct (gst_caps_is_fixed (st :: rest)) eqn:Hfix; [|done].
  destruct (caps_is_fixed_single _ Hfix) as [st' [= <- ->]].
  cbn [negb]. cbv iota. intros H. exists st. split; [done|]. revert H.
  unfold is_integer_format.
  destruct (gst_structure_get_int st "channels") as [c|]; [|done].
  destruct (positions st) as [p|]; [|done].
  destruct (gst_structure_get_int st "width") as [w|]; [|done].
  destruct (gst_structure_get_int st "rate") as [r|]; [|done]. simpl.
  destruct (String.eqb (gst_structure_get_name st) raw_int_name).
  - destruct (gst_structure_get_boolean st "signed") as [sg|]; [|done].
    destruct (gst_structure_get_int st "depth") as [d|]; [|done]. simpl.
    destruct (Z.eqb_spec w 8) as [->|Hw]; simpl.
    + destruct (Z.gtb_spec d 8); [done|]. simpl. intros [= <-]. simpl.
      repeat split; done.
    + destruct (gst_structure_get_int st "endianness") as [e|]; [|done]. simpl.
      destruct (Z.gtb_spec d w); [done|]. simpl. intros [= <-]. simpl.
      destruct (Z.eqb_spec w 8); [done|]. repeat split; done.
  - simpl. intros [= <-]. simpl. repeat split; done.
Qed.

(** X8: a format that parses comes from caps with exactly one
    structure and holds that structure's channels, channel positions, width
    and rate; an INTEGER format also holds its signed and depth fields, and
    its depth is not greater than its width; any other format keeps the sign
    and depth of the format passed in. *)
Theorem parse_caps_sound caps fmt0 fmt :
  parse_caps caps fmt0 = Some fmt →
  ∃ st, caps = [st] ∧
    gst_structure_get_int st "channels" = Some (channels fmt) ∧
    positions st = pos fmt ∧
    gst_structure_get_int st "width" = Some (width fmt) ∧
    gst_structure_get_int st "rate" = Some (rate fmt) ∧
    is_int fmt = is_integer_format st ∧
    (is_int fmt = true →
       gst_structure_get_boolean st "signed" = Some (sign fmt) ∧
       gst_structure_get_int st "depth" = Some (depth fmt) ∧
       depth fmt ≤ width fmt) ∧
    (is_int fmt = false → sign fmt = sign fmt0 ∧ depth fmt = depth fmt0).
Proof.
  intros (st & -> & Hc & Hp & Hw & Hr & Hi & Hrest)%parse_caps_Some_inv.
  exists st. do 6 (split; [done|]).
  destruct (is_int fmt).
  - destruct Hrest as (Hs & Hd & Hle & _). split; [done|]. intros [=].
  - destruct Hrest as (Hs & Hd & _). split; [intros [=]|done].
Qed.

(** X9: the endianness of a parsed format is the endianness field only
    for INTEGER of a width other than 8; for 8 bit INTEGER and for every other
    format it is the host byte order, whatever the caps say. *)
Theorem parse_caps_endianness caps fmt0 fmt :
  parse_caps caps fmt0 = Some fmt →
  ∃ st, caps = [st] ∧
    if is_int fmt && negb (width fmt =? 8)
    then gst_structure_get_int st "endianness" = Some (endianness fmt)
    else endianness fmt = G_BYTE_ORDER.
Proof.
  intros (st & -> & _ & _ & _ & _ & _ & Hrest)%parse_caps_Some_inv.
  exists st. split; [done|].
  destruct (is_int fmt); cbn [andb].
  - destruct Hrest as (_ & _ & _ & He). by destruct (width fmt =? 8).
  - by destruct Hrest as (_ & _ & He).
Qed.

(** X10: for a parsed format of at least 8 bits and at least one
    channel, whose frame size fits a gint, the unit size is positive (so
    the transform never divides by zero) and get_unit_size reports it. *)
Theorem parse_caps_unit_size_positive caps fmt0 fmt :
  parse_caps caps fmt0 = Some fmt →
  8 ≤ width fmt → 1 ≤ channels fmt → width fmt * channels fmt ≤ G_MAXINT →
  0 < unit_size fmt ∧
  get_unit_size caps = Some (unit_size fmt).
Proof.
  intros Hparse Hw Hc Hmax.
  destruct (parse_caps_Some _ _ _ _ _ Hparse)
    as (st & rest & _ & _ & _ & _ & _ & _ & Hu).
  assert (Hprod : 8 ≤ width fmt * channels fmt) by nia.
  assert (Hval : unit_size fmt = (width fmt * channels fmt) / 8).
  { rewrite Hu, to_gint_id by (unfold G_MININT, G_MAXINT in *; lia).
    apply Z.quot_div_nonneg; lia. }
  assert (Hpos : 0 < unit_size fmt).
  { rewrite Hval. apply Z.div_str_pos. lia. }
  split; [done|].
  unfold gst_audio_convert_get_unit_size.
  destruct (parse_caps_unit_size_indep _ _ _ _ fmt_zero _ Hparse) as (fmt' & -> & ->).
  f_equal. apply to_guint_id. unfold two32, G_MAXINT in *.
  split; [lia|]. rewrite Hval. apply Z.div_lt_upper_bound; lia.
Qed.

(** X11: when set_caps returns TRUE, both caps have parsed, the context
    is the one the preparation left for exactly the two parsed formats, and a
    format that is not INTEGER went to the preparation with depth 0 and sign
    FALSE, the contents of the zeroed format; when either caps does not parse,
    set_caps returns FALSE and the context is untouched. *)
Theorem set_caps_outcome ctx incaps outcaps :
  (∀ ctx', set_caps ctx incaps outcaps = (true, ctx') →
     ∃ fin fout,
       parse_caps incaps fmt_zero = Some fin ∧
       parse_caps outcaps fmt_zero = Some fout ∧
       prepare ctx fin fout = (true, ctx') ∧
       (is_int fin = false → depth fin = 0 ∧ sign fin = false) ∧
       (is_int fout = false → depth fout = 0 ∧ sign fout = false)) ∧
  (parse_caps incaps fmt_zero = None ∨ parse_caps outcaps fmt_zero = None →
     set_caps ctx incaps outcaps = (false, ctx)).
Proof.
  unfold gst_audio_convert_set_caps. split.
  - intros ctx'.
    destruct (parse_caps incaps fmt_zero) as [fin|] eqn:Hin; [|done].
    destruct (parse_caps outcaps fmt_zero) as [fout|] eqn:Hout; [|done].
    destruct (prepare ctx fin fout) as [[] ctx''] eqn:Hprep; [|done].
    cbn [negb]. intros [= <-]. exists fin, fout. do 3 (split; [done|]).
    destruct (parse_caps_Some_inv _ _ _ Hin)
      as (sti & _ & _ & _ & _ & _ & _ & Hfi).
    destruct (parse_caps_Some_inv _ _ _ Hout)
      as (sto & _ & _ & _ & _ & _ & _ & Hfo).
    split; intros Hi; [rewrite Hi in Hfi|rewrite Hi in Hfo];
      [destruct Hfi as (Hs & Hd & _)|destruct Hfo as (Hs & Hd & _)];
      by rewrite Hs, Hd.
  - intros [Hnone|Hnone].
    + by rewrite Hnone.
    + rewrite Hnone. by destruct (parse_caps incaps fmt_zero).
Qed.

End ParseInvariants.

(** * Further properties of fixation *)

Section FixationInvariants.

Lemma structure_eq (s s' : GstStructure) :
  st_name s = st_name s' →
  (∀ f, st_fields s !! f = st_fields s' !! f) → s = s'.
Proof.
  destruct s as [n m], s' as [n' m']. cbn. intros -> Hf. f_equal. by apply map_eq.
Qed.

Lemma signed_not_int_field : "signed" ∉ int_fields.
Proof.
  unfold int_fields. intros Hin.
  repeat (apply elem_of_cons in Hin as [[=]|Hin]). by apply elem_of_nil in Hin.
Qed.

(** Fixed caps are caps whose single structure has fixed fields only. *)
Lemma caps_is_fixed_lookup s :
  gst_caps_is_fixed [s] = true ↔
  ∀ f v, st_fields s !! f = Some v → gst_value_is_fixed v = true.
Proof.
  cbn [gst_caps_is_fixed]. rewrite forallb_forall. split.
  - intros Hall f v Hf. apply (Hall (f, v)).
    by apply list_elem_of_In, elem_of_map_to_list.
  - intros Hall [f v] Hin. apply (Hall f v).
    by apply elem_of_map_to_list, list_elem_of_In.
Qed.

Lemma fixate_int_if_present_value s f t :
  st_fields (fixate_int_if_present s f t) !! f = fixate_value t (st_fields s !! f).
Proof.
  unfold fixate_int_if_present, gst_structure_has_field,
    gst_structure_fixate_field_nearest_int, fixate_value.
  destruct (st_fields s !! f) as [[n|b|lo hi|vs|r]|] eqn:Hf; try done.
  - cbn [st_fields gst_structure_set_value]. apply lookup_insert_eq.
  - destruct (nearest_in_list t vs); [|done].
    cbn [st_fields gst_structure_set_value]. apply lookup_insert_eq.
Qed.

Lemma fixate_boolean_if_present_value s b :
  st_fields (if gst_structure_has_field s "signed"
             then gst_structure_fixate_field_boolean s "signed" b
             else s) !! "signed"
  = fixate_boolean_value b (st_fields s !! "signed").
Proof.
  unfold gst_structure_has_field, gst_structure_fixate_field_boolean,
    fixate_boolean_value.
  destruct (st_fields s !! "signed") as [[n|c|lo hi|vs|r]|] eqn:Hf; try done.
  destruct (fold_left _ _ _); [|done].
  cbn [st_fields gst_structure_set_value]. apply lookup_insert_eq.
Qed.

Lemma fixate_structure_name width_uninit ins outs :
  st_name (fixate_structure width_uninit ins outs) = st_name outs.
Proof.
  unfold fixate_structure. cbv zeta.
  rewrite fixate_boolean_step_name, fixate_int_if_present_name.
  by rewrite !fixate_step_name.
Qed.

(** Field by field, the chain of blocks does what each block does alone. *)
Lemma fixate_structure_lookup width_uninit ins outs f :
  st_fields (fixate_structure width_uninit ins outs) !! f
  = fixated_field width_uninit ins f (st_fields outs !! f).
Proof.
  unfold fixate_structure. cbv zeta.
  set (o1 := match gst_structure_get_int ins "channels" with
             | Some channels => fixate_int_if_present outs "channels" channels
             | None => outs
             end).
  set (o2 := match gst_structure_get_int ins "rate" with
             | Some rate => fixate_int_if_present o1 "rate" rate
             | None => o1
             end).
  set (o3 := match gst_structure_get_int ins "endianness" with
             | Some endianness => fixate_int_if_present o2 "endianness" endianness
             | None => o2
             end).
  set (o4 := match gst_structure_get_int ins "width" with
             | Some width => fixate_int_if_present o3 "width" width
             | None => o3
             end).
  set (o5 := fixate_int_if_present o4 "depth" _).
  assert (H1 : ∀ g, g ≠ "channels" → st_fields o1 !! g = st_fields outs !! g)
    by (intros; by apply fixate_step_other).
  assert (H2 : ∀ g, g ≠ "rate" → st_fields o2 !! g = st_fields o1 !! g)
    by (intros; by apply fixate_step_other).
  assert (H3 : ∀ g, g ≠ "endianness" → st_fields o3 !! g = st_fields o2 !! g)
    by (intros; by apply fixate_step_other).
  assert (H4 : ∀ g, g ≠ "width" → st_fields o4 !! g = st_fields o3 !! g)
    by (intros; by apply fixate_step_other).
  assert (H5 : ∀ g, g ≠ "depth" → st_fields o5 !! g = st_fields o4 !! g)
    by (intros; by apply fixate_int_if_present_other).
  assert (Hstep : ∀ (o : option Z) s g,
            st_fields match o with
                      | Some t => fixate_int_if_present s g t
                      | None => s
                      end !! g
            = match o with
              | Some t => fixate_value t (st_fields s !! g)
              | None => st_fields s !! g
              end).
  { intros [t|] s g; [apply fixate_int_if_present_value|done]. }
  unfold fixated_field, fixation_target.
  destruct (decide (f ∈ int_fields)) as [Hin|Hnin].
  - rewrite fixate_boolean_step_other
      by (intros ->; by apply signed_not_int_field).
    unfold int_fields in Hin.
    repeat (apply elem_of_cons in Hin as [-> | Hin]); [..|by apply elem_of_nil in Hin];
      cbn [String.eqb Ascii.eqb Bool.eqb].
    + rewrite H5, H4, H3, H2 by done. unfold o1. rewrite Hstep.
      by destruct (gst_structure_get_int ins "channels").
    + rewrite H5, H4, H3 by done. unfold o2. rewrite Hstep, H1 by done.
      by destruct (gst_structure_get_int ins "rate").
    + rewrite H5, H4 by done. unfold o3. rewrite Hstep, H2, H1 by done.
      by destruct (gst_structure_get_int ins "endianness").
    + rewrite H5 by done. unfold o4. rewrite Hstep, H3, H2, H1 by done.
      by destruct (gst_structure_get_int ins "width").
    + unfold o5. rewrite fixate_int_if_present_value, H4, H3, H2, H1 by done.
      by destruct (gst_structure_get_int ins "depth").
  - assert (Hne : f ≠ "channels" ∧ f ≠ "rate" ∧ f ≠ "endianness" ∧
                  f ≠ "width" ∧ f ≠ "depth").
    { unfold int_fields in Hnin. repeat split; intros ->; apply Hnin; in_list. }
    destruct Hne as (? & ? & ? & ? & ?).
    destruct (decide (f = "signed")) as [->|Hns].
    + destruct (gst_structure_get_boolean ins "signed") as [b|].
      * rewrite fixate_boolean_if_present_value. by rewrite H5, H4, H3, H2, H1.
      * by rewrite H5, H4, H3, H2, H1.
    + rewrite fixate_boolean_step_other by done. by rewrite H5, H4, H3, H2, H1.
Qed.

(** On fixed caps the function replaces the first structure of the other
    caps by the chain of its blocks. *)
Lemma fixate_caps_unfold width_uninit ins outs others :
  gst_caps_is_fixed [ins] = true →
  gst_audio_convert_fixate_caps width_uninit [ins] (outs :: others)
  = fixate_structure width_uninit ins outs :: others.
Proof.
  intros Hfix. unfold gst_audio_convert_fixate_caps, fixate_structure.
  rewrite Hfix. cbn [negb]. cbv iota zeta.
  destruct (gst_structure_get_int ins "width") as [w|];
    destruct (gst_structure_get_int ins "depth") as [d|]; reflexivity.
Qed.

Lemma fixate_value_fixed t o :
  (∀ v, o = Some v → gst_value_is_fixed v = true) → fixate_value t o = o.
Proof.
  intros Hfix. destruct o as [[n|b|lo hi|vs|r]|]; try done.
  - by specialize (Hfix _ eq_refl).
  - by specialize (Hfix _ eq_refl).
Qed.

Lemma fixate_boolean_value_fixed b o :
  (∀ v, o = Some v → gst_value_is_fixed v = true) → fixate_boolean_value b o = o.
Proof.
  intros Hfix. destruct o as [[n|c|lo hi|vs|r]|]; try done.
  by specialize (Hfix _ eq_refl).
Qed.

Lemma fixated_field_fixed width_uninit ins f o :
  (∀ v, o = Some v → gst_value_is_fixed v = true) →
  fixated_field width_uninit ins f o = o.
Proof.
  intros Hfix. unfold fixated_field.
  destruct (decide (f ∈ int_fields)).
  - destruct (fixation_target width_uninit ins f); [|done].
    by apply fixate_value_fixed.
  - destruct (decide (f = "signed")); [|done].
    destruct (gst_structure_get_boolean ins "signed"); [|done].
    by apply fixate_boolean_value_fixed.
Qed.

Lemma fixate_value_idempotent t o :
  fixate_value t (fixate_value t o) = fixate_value t o.
Proof.
  destruct o as [[n|b|lo hi|vs|r]|]; try done.
  cbn [fixate_value]. destruct (nearest_in_list t vs) eqn:Hn; [done|].
  cbn [fixate_value]. by rewrite Hn.
Qed.

Lemma fixate_boolean_value_idempotent b o :
  fixate_boolean_value b (fixate_boolean_value b o) = fixate_boolean_value b o.
Proof.
  destruct o as [[n|c|lo hi|vs|r]|]; try done.
  cbn [fixate_boolean_value].
  destruct (fold_left (boolean_step b) vs None) eqn:Hn; [done|].
  cbn [fixate_boolean_value]. by rewrite Hn.
Qed.

Lemma fixated_field_idempotent width_uninit ins f o :
  fixated_field width_uninit ins f (fixated_field width_uninit ins f o)
  = fixated_field width_uninit ins f o.
Proof.
  unfold fixated_field.
  destruct (decide (f ∈ int_fields)).
  - destruct (fixation_target width_uninit ins f); [|done].
    apply fixate_value_idempotent.
  - destruct (decide (f = "signed")); [|done].
    destruct (gst_structure_get_boolean ins "signed"); [|done].
    apply fixate_boolean_value_idempotent.
Qed.

(** X12: caps that are already fixed are left exactly as they are,
    whatever the caps they are fixated against. *)
Theorem fixate_caps_fixed_unchanged width_uninit caps outs others :
  gst_caps_is_fixed [outs] = true →
  gst_audio_convert_fixate_caps width_uninit caps (outs :: others)
  = outs :: others.
Proof.
  intros Houts. destruct (gst_caps_is_fixed caps) eqn:Hfix.
  - destruct caps as [|ins [|]]; try done.
    rewrite fixate_caps_unfold by done. f_equal.
    apply structure_eq; [apply fixate_structure_name|].
    intros f. rewrite fixate_structure_lookup. apply fixated_field_fixed.
    intros v Hv. by apply (proj1 (caps_is_fixed_lookup outs) Houts f).
  - unfold gst_audio_convert_fixate_caps. by rewrite Hfix.
Qed.

(** X13: fixating a second time against the same caps changes
    nothing more. *)
Theorem fixate_caps_idempotent width_uninit caps othercaps :
  gst_audio_convert_fixate_caps width_uninit caps
    (gst_audio_convert_fixate_caps width_uninit caps othercaps)
  = gst_audio_convert_fixate_caps width_uninit caps othercaps.
Proof.
  destruct (gst_caps_is_fixed caps) eqn:Hfix.
  - destruct caps as [|ins [|]]; try done.
    destruct othercaps as [|outs others].
    { unfold gst_audio_convert_fixate_caps. by rewrite Hfix. }
    rewrite !fixate_caps_unfold by done. f_equal.
    apply structure_eq; [by rewrite !fixate_structure_name|].
    intros f. rewrite !fixate_structure_lookup. apply fixated_field_idempotent.
  - unfold gst_audio_convert_fixate_caps. by rewrite Hfix.
Qed.

Lemma boolean_fold_None b vs : ∀ acc,
  fold_left (boolean_step b) vs acc = None → ∀ c, GBoolean c ∉ vs.
Proof.
  induction vs as [|v vs IH]; intros acc Hfold c; cbn [fold_left] in Hfold.
  - apply not_elem_of_nil.
  - intros [Hc|Hc]%elem_of_cons; [|by eapply IH].
    subst v. cbn [boolean_step] in Hfold.
    assert (Hsome : ∀ us z, fold_left (boolean_step b) us (Some z) ≠ None).
    { clear. induction us as [|u us IHus]; intros z; cbn [fold_left]; [done|].
      destruct u; cbn [boolean_step]; try apply IHus.
      destruct (Bool.eqb _ _); apply IHus. }
    destruct acc as [a|]; [destruct (Bool.eqb _ _)|]; by eapply Hsome.
Qed.

(** The chain of blocks fixes every field that is fixable. *)
Lemma fixate_structure_fixed width_uninit ins outs :
  (∀ f v, st_fields outs !! f = Some v → fixable_against width_uninit ins f v) →
  gst_caps_is_fixed [fixate_structure width_uninit ins outs] = true.
Proof.
  intros Hfixable. apply caps_is_fixed_lookup. intros f v.
  rewrite fixate_structure_lookup.
  destruct (st_fields outs !! f) as [v0|] eqn:Hv0.
  2:{ rewrite fixated_field_fixed by done. done. }
  destruct (Hfixable f v0 Hv0) as [Hv|[(Hin & [t Ht] & Hint)|(-> & [b Hb] & Hbool)]].
  - rewrite fixated_field_fixed by (by intros ? [= <-]). by intros [= <-].
  - unfold fixated_field. rewrite decide_True, Ht by done.
    destruct v0 as [n|c|lo hi|vs|r]; try done; cbn [fixate_value].
    + by intros [= <-].
    + destruct Hint as [y Hy].
      destruct (nearest_in_list t vs) as [x|] eqn:Hn; [by intros [= <-]|].
      by destruct (nearest_fold_None _ _ _ Hn y).
  - unfold fixated_field.
    rewrite decide_False, decide_True, Hb by (done || apply signed_not_int_field).
    destruct v0 as [n|c|lo hi|vs|r]; try done; cbn [fixate_boolean_value].
    destruct Hbool as [c Hc].
    destruct (fold_left (boolean_step b) vs None) as [x|] eqn:Hn;
      [by intros [= <-]|].
    by destruct (boolean_fold_None _ _ _ Hn c).
Qed.

(** X14: fixated against fixed caps, a structure whose every field is
    fixed already, or is an int range or a list with an int entry for which
    the fixed side has a target, or is a signed list with a boolean entry
    while the fixed side has signed, comes out fixed. *)
Theorem fixate_caps_gives_fixed width_uninit ins outs others :
  gst_caps_is_fixed [ins] = true →
  (∀ f v, gst_structure_get_value outs f = Some v →
          fixable_against width_uninit ins f v) →
  ∃ outs',
    gst_audio_convert_fixate_caps width_uninit [ins] (outs :: others)
      = outs' :: others ∧
    gst_caps_is_fixed [outs'] = true.
Proof.
  intros Hfix Hfixable. eexists. split; [by apply fixate_caps_unfold|].
  by apply fixate_structure_fixed.
Qed.

End FixationInvariants.

(** * Negotiation followed by fixation *)

Section NegotiationThenFixation.

Variable G_BYTE_ORDER : Z.
Variable width_uninit : Z.

Local Abbreviation transform_caps := (gst_audio_convert_transform_caps G_BYTE_ORDER).
Local Abbreviation lossless := (make_lossless_changes G_BYTE_ORDER).
Local Abbreviation fixate_caps := (gst_audio_convert_fixate_caps width_uninit).

Section Complete.

Variable ins : GstStructure.
Hypothesis Hcomplete : complete_descriptor ins.

Lemma complete_target f :
  f ∈ int_fields → f ≠ "rate" → is_Some (fixation_target width_uninit ins f).
Proof.
  destruct Hcomplete as (_ & [c Hc] & [e He] & (w & Hw & _) & _).
  intros Hin Hrate. unfold int_fields in Hin. unfold fixation_target.
  repeat (apply elem_of_cons in Hin as [-> | Hin]); [..|by apply elem_of_nil in Hin];
    try done.
  - by rewrite Hc.
  - by rewrite He.
  - by rewrite Hw.
  - destruct (gst_structure_get_int ins "depth"); cbn; eauto.
Qed.

Lemma complete_lossless s b :
  (∀ f v, st_fields s !! f = Some v → fixable_against width_uninit ins f v) →
  ∀ f v, st_fields (lossless s b) !! f = Some v →
         fixable_against width_uninit ins f v.
Proof.
  intros Hs f v. destruct Hcomplete as (_ & _ & _ & _ & Hsigned).
  destruct b; cbn.
  - intros [[<- <-]|[_ Hf]]%lookup_insert_Some; [by left|].
    apply lookup_insert_Some in Hf as [[<- <-]|[_ Hf]].
    { right. left. split; [unfold int_fields; in_list|].
      split; [apply complete_target; [unfold int_fields; in_list|done]|].
      exists 32. apply list_elem_of_here. }
    apply lookup_delete_Some in Hf as [_ Hf].
    apply lookup_delete_Some in Hf as [_ Hf]. by apply Hs.
  - intros [[<- <-]|[_ Hf]]%lookup_insert_Some.
    { right. right. split; [done|]. split; [done|].
      exists true. apply list_elem_of_here. }
    apply lookup_insert_Some in Hf as [[<- <-]|[_ Hf]]; [|by apply Hs].
    right. left. split; [unfold int_fields; in_list|].
    split; [apply complete_target; [unfold int_fields; in_list|done]|].
    exists G_LITTLE_ENDIAN. apply list_elem_of_here.
Qed.

Lemma complete_stage_copy f v :
  st_fields (stage_copy ins) !! f = Some v → gst_value_is_fixed v = true.
Proof.
  intros Hf. destruct Hcomplete as (Hfix & _).
  destruct (stage_copy_lookup_Some _ _ _ Hf) as [_ [Hv|(_ & _ & w & _ & ->)]]; [|done].
  by apply (proj1 (caps_is_fixed_lookup ins) Hfix f).
Qed.

(** X15: for a complete fixed descriptor, every template the negotiation
    returns comes out of fixation against that descriptor as fixed caps. *)
Theorem negotiated_templates_fixate :
  ∃ ret, transform_caps [ins] = Some ret ∧
    ∀ t, t ∈ ret →
      ∃ t', fixate_caps [ins] [t] = [t'] ∧ gst_caps_is_fixed [t'] = true.
Proof.
  destruct (transform_caps_Some G_BYTE_ORDER ins) as [ret Hret].
  exists ret. split; [done|]. intros t Hin.
  pose proof Hcomplete as (Hfix & _ & _ & (w & Hw & Hw32) & _).
  eexists. split; [by apply fixate_caps_unfold|].
  apply fixate_structure_fixed.
  apply (transform_caps_all G_BYTE_ORDER ins
           (λ t, ∀ f v, st_fields t !! f = Some v →
                        fixable_against width_uninit ins f v)
           (λ v, gst_value_is_fixed v = true ∨ int_fixable v)) with ret;
    try done.
  - intros s f v Hf Hok Hs g u. cbn [st_fields gst_structure_set_value].
    intros [[<- <-]|[_ Hg]]%lookup_insert_Some; [|by apply Hs].
    destruct Hok as [Hok|Hok]; [by left|]. right. left.
    split; [unfold int_fields; destruct Hf as [->|[->| ->]]; in_list|].
    split; [|done].
    apply complete_target; destruct Hf as [->|[->| ->]];
      (done || (unfold int_fields; in_list)).
  - by left.
  - by right.
  - intros lo Hlo _. right. exists lo.
    replace lo with (lo + 8 * 0) at 1 by lia.
    apply widths_loop_complete; [done|done|].
    destruct Hlo as [->|[->|Hlo]]; [lia|lia|]. rewrite Hw in Hlo.
    injection Hlo as <-. lia.
  - intros s b Hs. unfold other_format.
    destruct b; by apply complete_lossless.
  - unfold stage_lossless. apply complete_lossless.
    intros f v Hf. left. by eapply complete_stage_copy.
Qed.

Lemma get_boolean_value s f b :
  gst_structure_get_boolean s f = Some b → st_fields s !! f = Some (GBoolean b).
Proof.
  unfold gst_structure_get_boolean.
  destruct (st_fields s !! f) as [[]|]; try done. by intros [= ->].
Qed.

Lemma stage_copy_depth_default st w :
  isfloat_structure st = false →
  st_fields st !! "depth" = None →
  gst_structure_get_int st "width" = Some w →
  st_fields (stage_copy st) !! "depth" = Some (GInt w).
Proof.
  intros Hfl Hd Hw. unfold stage_copy. rewrite Hfl. cbn [negb].
  set (copy := fold_left (copy_field st) fields_used
                 (gst_structure_empty_new (gst_structure_get_name st))).
  assert (Hcd : st_fields copy !! "depth" = None).
  { unfold copy. rewrite copy_fields_lookup, Hd. by destruct (decide _). }
  assert (Hcw : st_fields copy !! "width" = st_fields st !! "width").
  { unfold copy. rewrite copy_fields_lookup.
    rewrite decide_True by (unfold fields_used; in_list).
    cbn [st_fields gst_structure_empty_new]. rewrite lookup_empty.
    by destruct (st_fields st !! "width"). }
  unfold gst_structure_has_field, gst_structure_get_int in *.
  rewrite Hcd, Hcw. destruct (st_fields st !! "width") as [[]|]; try done.
  injection Hw as ->. cbn [st_fields gst_structure_set_value].
  apply lookup_insert_eq.
Qed.

(** X16: the conversion that changes nothing is preferred.  For a
    complete fixed descriptor that is not FLOAT and whose endianness is little
    or big endian, fixating the first template of the negotiation against the
    descriptor gives the descriptor back: its name and its used fields, the
    depth being the width where the descriptor has none, and no other field. *)
Theorem first_template_fixates_to_input :
  isfloat_structure ins = false →
  (∃ e, gst_structure_get_int ins "endianness" = Some e ∧
        (e = G_LITTLE_ENDIAN ∨ e = G_BIG_ENDIAN)) →
  ∃ t0 rest t',
    transform_caps [ins] = Some (t0 :: rest) ∧
    fixate_caps [ins] [t0] = [t'] ∧
    gst_structure_get_name t' = gst_structure_get_name ins ∧
    (∀ f, f ∈ fields_used → f ≠ "depth" →
       gst_structure_get_value t' f = gst_structure_get_value ins f) ∧
    (∀ f, f ∉ fields_used → gst_structure_get_value t' f = None) ∧
    gst_structure_get_value t' "depth"
    = match gst_structure_get_value ins "depth" with
      | Some v => Some v
      | None => GInt <$> gst_structure_get_int ins "width"
      end.
Proof.
  intros Hfl (e & He & Hendian).
  pose proof Hcomplete as (Hfix & _ & _ & (w & Hw & _) & [b Hb]).
  pose proof (proj1 (caps_is_fixed_lookup ins) Hfix) as Hfixed.
  eexists _, _, _. split; [apply transform_caps_stages|].
  split; [by apply fixate_caps_unfold|].
  unfold gst_structure_get_name, gst_structure_get_value.
  rewrite fixate_structure_name, stage_lossless_name.
  split; [done|].
  assert (Hlossless : ∀ f, f ≠ "endianness" → f ≠ "signed" →
            st_fields (stage_lossless G_BYTE_ORDER ins) !! f
            = st_fields (stage_copy ins) !! f).
  { intros f ??. unfold stage_lossless. rewrite Hfl.
    by apply make_lossless_changes_int_width. }
  assert (Hcopy_fixed : ∀ f, f ≠ "endianness" → f ≠ "signed" →
            st_fields (fixate_structure width_uninit ins
                         (stage_lossless G_BYTE_ORDER ins)) !! f
            = st_fields (stage_copy ins) !! f).
  { intros f ??. rewrite fixate_structure_lookup, Hlossless by done.
    apply fixated_field_fixed. intros v Hv. by eapply complete_stage_copy. }
  split; [|split].
  - intros f Hin Hnd. unfold fields_used in Hin.
    repeat (apply elem_of_cons in Hin as [-> | Hin]); [..|by apply elem_of_nil in Hin];
      try done.
    + rewrite Hcopy_fixed by done.
      apply stage_copy_lookup; [unfold fields_used; in_list|done].
    + rewrite Hcopy_fixed by done.
      apply stage_copy_lookup; [unfold fields_used; in_list|done].
    + rewrite Hcopy_fixed by done.
      apply stage_copy_lookup; [unfold fields_used; in_list|done].
    + rewrite fixate_structure_lookup. unfold fixated_field, fixation_target.
      rewrite decide_True by (unfold int_fields; in_list). rewrite He.
      rewrite (get_int_value _ _ _ He).
      unfold stage_lossless. rewrite Hfl.
      destruct (offers_all_layouts_lossless G_BYTE_ORDER (stage_copy ins)) as [Hl _].
      unfold gst_structure_get_value in Hl. rewrite Hl.
      by destruct Hendian as [-> | ->].
    + rewrite fixate_structure_lookup. unfold fixated_field.
      rewrite decide_False by apply signed_not_int_field.
      rewrite decide_True by done. rewrite Hb, (get_boolean_value _ _ _ Hb).
      unfold stage_lossless. rewrite Hfl.
      destruct (offers_all_layouts_lossless G_BYTE_ORDER (stage_copy ins)) as [_ Hl].
      unfold gst_structure_get_value in Hl. rewrite Hl.
      by destruct b.
  - intros f Hnin.
    assert (Hne : f ≠ "endianness" ∧ f ≠ "signed").
    { unfold fields_used in Hnin. split; intros ->; apply Hnin; in_list. }
    destruct Hne. rewrite Hcopy_fixed by done.
    destruct (st_fields (stage_copy ins) !! f) as [v|] eqn:Hv; [|done].
    by destruct (stage_copy_lookup_Some _ _ _ Hv) as [? _].
  - rewrite Hcopy_fixed by done. rewrite Hw. cbn [fmap option_fmap option_map].
    destruct (st_fields ins !! "depth") as [v|] eqn:Hd.
    + by apply stage_copy_depth.
    + by apply stage_copy_depth_default.
Qed.

End Complete.

End NegotiationThenFixation.

(** * Further properties of the transform *)

Section TransformInvariants.

Variable convert :
  AudioConvertCtx → list Byte.byte → list Byte.byte → Z → bool →
  bool * list Byte.byte.

Local Abbreviation transform := (gst_audio_convert_transform convert).

(** X17: the transform never makes the output buffer longer than it
    was handed over, and keeps it writable or not as it was; unless the
    conversion was called the buffer is untouched, and whenever the result is
    GST_FLOW_ERROR its size is the one it had. *)
Theorem transform_output_buffer ctx inbuf outbuf :
  transform_in_range ctx inbuf outbuf →
  ∃ flow outbuf' events,
    transform ctx inbuf outbuf = Some (flow, outbuf', events) ∧
    buf_size outbuf' ≤ buf_size outbuf ∧
    buf_writable outbuf' = buf_writable outbuf ∧
    (¬ convert_called events → outbuf' = outbuf) ∧
    (flow = GST_FLOW_ERROR → buf_size outbuf' = buf_size outbuf).
Proof.
  intros Hrange. rewrite transform_in_range_eq by done. cbv zeta.
  destruct (_ || _).
  { eexists _, _, _. split; [done|]. repeat split; (done || lia). }
  destruct (Z.ltb_spec (buf_size outbuf) (output_bytes ctx inbuf)).
  { eexists _, _, _. split; [done|]. repeat split; (done || lia). }
  assert (Hcalled : ∀ n w rest, convert_called (EvGetSizes n :: EvConvert n w :: rest)).
  { intros n w rest. exists n, w. apply list_elem_of_further, list_elem_of_here. }
  destruct (convert _ _ _ _ _) as [[] dst]; cbn [negb];
    eexists _, _, _; (split; [done|]); cbn [buf_size buf_writable];
    (split; [lia|]); (split; [done|]); split; try done;
    intros Hnot; by destruct Hnot.
Qed.


End TransformInvariants.

(** X5 at 16 bit stereo with and without channel positions. *)
Lemma transform_caps_ignores_other_fields_witness :
  same_used_fields int16_stereo int16_stereo_positions ∧
  gst_audio_convert_transform_caps G_LITTLE_ENDIAN [int16_stereo]
  = gst_audio_convert_transform_caps G_LITTLE_ENDIAN [int16_stereo_positions].
Proof.
  assert (Hsame : same_used_fields int16_stereo int16_stereo_positions).
  { split; [reflexivity|]. intros f Hf. unfold fields_used in Hf.
    repeat (apply elem_of_cons in Hf as [-> | Hf]); try reflexivity.
    by apply elem_of_nil in Hf. }
  split; [exact Hsame|].
  exact (transform_caps_ignores_other_fields G_LITTLE_ENDIAN _ _ Hsame).
Defined.

(** X8 at 16 bit stereo. *)
Lemma parse_caps_sound_witness :
  gst_audio_convert_parse_caps G_LITTLE_ENDIAN stereo_positions
    [int16_stereo] fmt_zero = Some fmt_int16_stereo ∧
  ∃ st, [int16_stereo] = [st] ∧
    gst_structure_get_int st "channels" = Some 2 ∧
    stereo_positions st = Some [1; 2] ∧
    gst_structure_get_int st "width" = Some 16 ∧
    gst_structure_get_int st "rate" = Some 44100 ∧
    true = is_integer_format st ∧
    (true = true →
       gst_structure_get_boolean st "signed" = Some true ∧
       gst_structure_get_int st "depth" = Some 16 ∧ 16 ≤ 16) ∧
    (true = false → true = sign fmt_zero ∧ 16 = depth fmt_zero).
Proof.
  split; [reflexivity|].
  apply (parse_caps_sound G_LITTLE_ENDIAN stereo_positions
           [int16_stereo] fmt_zero fmt_int16_stereo).
  reflexivity.
Defined.

(** X9 at 16 bit stereo: the endianness is the one of the caps. *)
Lemma parse_caps_endianness_witness :
  gst_audio_convert_parse_caps G_BIG_ENDIAN stereo_positions
    [int16_stereo] fmt_zero = Some fmt_int16_stereo ∧
  ∃ st, [int16_stereo] = [st] ∧
    gst_structure_get_int st "endianness" = Some G_LITTLE_ENDIAN.
Proof.
  split; [reflexivity|].
  apply (parse_caps_endianness G_BIG_ENDIAN stereo_positions
           [int16_stereo] fmt_zero fmt_int16_stereo).
  reflexivity.
Defined.

(** X10 at 16 bit stereo: four bytes per frame. *)
Lemma parse_caps_unit_size_positive_witness :
  gst_audio_convert_parse_caps G_LITTLE_ENDIAN stereo_positions
    [int16_stereo] fmt_zero = Some fmt_int16_stereo ∧
  0 < 4 ∧
  gst_audio_convert_get_unit_size G_LITTLE_ENDIAN stereo_positions
    [int16_stereo] = Some 4.
Proof.
  split; [reflexivity|].
  apply (parse_caps_unit_size_positive G_LITTLE_ENDIAN stereo_positions
           [int16_stereo] fmt_zero fmt_int16_stereo);
    [reflexivity|vm_compute; congruence..].
Defined.

(** X12: 16 bit stereo caps fixated against float caps. *)
Lemma fixate_caps_fixed_unchanged_witness :
  gst_caps_is_fixed [int16_stereo] = true ∧
  gst_audio_convert_fixate_caps 0 [float32_stereo] [int16_stereo]
  = [int16_stereo].
Proof.
  split; [reflexivity|].
  apply (fixate_caps_fixed_unchanged 0 [float32_stereo] int16_stereo []).
  reflexivity.
Defined.

(** The float template is fixable against float 32 bit stereo. *)
Lemma float_any_channels_fixable f v :
  gst_structure_get_value float_any_channels f = Some v →
  fixable_against 0 float32_stereo f v.
Proof.
  unfold gst_structure_get_value, float_any_channels, structure_of.
  cbn [st_fields list_to_map foldr fst snd].
  intros [[<- <-]|[_ Hf]]%lookup_insert_Some.
  { right. left. split; [unfold int_fields; in_list|].
    split; [by eexists|]. exists 32. apply list_elem_of_here. }
  apply lookup_insert_Some in Hf as [[<- <-]|[_ Hf]].
  { right. left. split; [unfold int_fields; in_list|].
    split; [by eexists|]. done. }
  apply lookup_insert_Some in Hf as [[<- <-]|[_ Hf]]; [by left|].
  apply lookup_insert_Some in Hf as [[<- <-]|[_ Hf]]; [by left|].
  by rewrite lookup_empty in Hf.
Qed.

(** X14 at a float template against float 32 bit stereo. *)
Lemma fixate_caps_gives_fixed_witness :
  gst_caps_is_fixed [float32_stereo] = true ∧
  ∃ outs',
    gst_audio_convert_fixate_caps 0 [float32_stereo] [float_any_channels]
      = [outs'] ∧
    gst_caps_is_fixed [outs'] = true.
Proof.
  split; [reflexivity|].
  apply (fixate_caps_gives_fixed 0 float32_stereo float_any_channels []).
  - reflexivity.
  - apply float_any_channels_fixable.
Defined.

(** 16 bit stereo is a complete descriptor. *)
Lemma int16_stereo_complete : complete_descriptor int16_stereo.
Proof.
  split; [reflexivity|]. split; [by eexists|]. split; [by eexists|].
  split; [exists 16; split; [reflexivity|lia]|by eexists].
Qed.

(** X15 at 16 bit stereo. *)
Lemma negotiated_templates_fixate_witness :
  complete_descriptor int16_stereo ∧
  ∃ ret,
    gst_audio_convert_transform_caps G_LITTLE_ENDIAN [int16_stereo] = Some ret ∧
    ∀ t, t ∈ ret →
      ∃ t', gst_audio_convert_fixate_caps 0 [int16_stereo] [t] = [t'] ∧
            gst_caps_is_fixed [t'] = true.
Proof.
  split; [apply int16_stereo_complete|].
  apply (negotiated_templates_fixate G_LITTLE_ENDIAN 0 int16_stereo).
  apply int16_stereo_complete.
Defined.

(** X16 at 16 bit stereo. *)
Lemma first_template_fixates_to_input_witness :
  complete_descriptor int16_stereo ∧
  isfloat_structure int16_stereo = false ∧
  ∃ t0 rest t',
    gst_audio_convert_transform_caps G_LITTLE_ENDIAN [int16_stereo]
      = Some (t0 :: rest) ∧
    gst_audio_convert_fixate_caps 0 [int16_stereo] [t0] = [t'] ∧
    gst_structure_get_name t' = gst_structure_get_name int16_stereo ∧
    (∀ f, f ∈ fields_used → f ≠ "depth" →
       gst_structure_get_value t' f = gst_structure_get_value int16_stereo f) ∧
    (∀ f, f ∉ fields_used → gst_structure_get_value t' f = None) ∧
    gst_structure_get_value t' "depth"
    = match gst_structure_get_value int16_stereo "depth" with
      | Some v => Some v
      | None => GInt <$> gst_structure_get_int int16_stereo "width"
      end.
Proof.
  split; [apply int16_stereo_complete|]. split; [reflexivity|].
  apply (first_template_fixates_to_input G_LITTLE_ENDIAN 0 int16_stereo).
  - apply int16_stereo_complete.
  - reflexivity.
  - exists G_LITTLE_ENDIAN. split; [reflexivity|]. by left.
Defined.

(** X17 at a 10 byte buffer of 4 byte frames and a 16 byte output. *)
Lemma transform_output_buffer_witness :
  transform_in_range ctx_int16_to_float32 buffer_10 buffer_16 ∧
  ∃ flow outbuf' events,
    gst_audio_convert_transform convert_zeroes ctx_int16_to_float32
      buffer_10 buffer_16 = Some (flow, outbuf', events) ∧
    buf_size outbuf' ≤ 16 ∧
    buf_writable outbuf' = true ∧
    (¬ convert_called events → outbuf' = buffer_16) ∧
    (flow = GST_FLOW_ERROR → buf_size outbuf' = 16).
Proof.
  split; [repeat split; vm_compute; congruence|].
  apply (transform_output_buffer convert_zeroes ctx_int16_to_float32
           buffer_10 buffer_16).
  repeat split; vm_compute; congruence.
Defined.

